(** * ComplexPlot: the expression compiler core

    A shallow embedding of the expression compiler of ComplexPlot
    (tokenizer, symbol tables, shunting-yard parser, JavaScript code
    generator, complex arithmetic, the [Expression] facade and the
    [c_pow] routine of the shader library), and the properties of the
    specification stated over it.

    Conventions of the embedding.
    - A JavaScript string is the list of its UTF-16 code units.
    - A JavaScript number is an extended real: a real value, [+Infinity],
      [-Infinity] or [NaN], with the IEEE 754 rules for the special values.
      Rounding and overflow of finite values are not modelled, and zero
      is unsigned (it is read as [+0]).
    - A JavaScript array used as a stack ([outputQueue], [operatorStack])
      is a list whose head is the top of the stack, that is, the LAST
      element of the array.
    - A thrown exception is the [Err] case of [result]. *)

From Stdlib Require Import List String Ascii NArith ZArith Bool Arith Lia.
From Stdlib Require Import Reals Lra.
Import ListNotations.

Set Implicit Arguments.

(** ** Strings *)

Definition jschar := N.
Definition jsstring := list jschar.

(** [str "abc"] is the JavaScript string literal ['abc']. *)
Definition str (s : string) : jsstring :=
  map N_of_ascii (list_ascii_of_string s).

Fixpoint streq (a b : jsstring) : bool :=
  match a, b with
  | [], [] => true
  | x :: a', y :: b' => N.eqb x y && streq a' b'
  | _, _ => false
  end.

(** ** Errors and results *)

Inductive Error : Type :=
| FunctionCannotBeEmpty                          (* "Function cannot be empty." *)
| InvalidCharacters                              (* "Invalid characters in function." *)
| UnexpectedToken (tok last : jsstring)          (* "Unexpected token 't' after 'l'." *)
| OperatorCannotFollow (op last : jsstring)      (* "Operator 'o' cannot follow operator 'l'." *)
| UnknownIdentifier (name : jsstring)            (* "Unknown identifier 'n'." *)
| MismatchedParentheses                          (* "Mismatched parentheses." *)
| InvalidExpressionStructure                     (* "Invalid expression structure." *)
| InvalidUnaryMinus                              (* "Invalid unary minus." *)
| NotEnoughArguments (fn : jsstring)             (* "Not enough arguments for function 'f'." *)
| MissingOperand (op : jsstring)                 (* "Missing operand for operator 'o'." *)
| TypeError.                                     (* host error: property read on undefined *)

Inductive result (A : Type) : Type :=
| Ok (a : A)
| Err (e : Error).
Arguments Ok {A} a.
Arguments Err {A} e.

Definition bind {A B : Type} (r : result A) (k : A -> result B) : result B :=
  match r with
  | Ok a => k a
  | Err e => Err e
  end.

Declare Scope result_scope.
Delimit Scope result_scope with result.
Notation "x <- r ;; k" := (bind r (fun x => k))
  (at level 61, r at next level, right associativity) : result_scope.
Notation "' p <- r ;; k" := (bind r (fun x => let p := x in k))
  (at level 61, p pattern, r at next level, right associativity) : result_scope.
Open Scope result_scope.

(** ** Tokenizer (tokenizer.ts) *)

Inductive TokenType : Type :=
| Number | Identifier | Operator | LeftParen | RightParen | Comma.

Definition TokenType_eqb (a b : TokenType) : bool :=
  match a, b with
  | Number, Number | Identifier, Identifier | Operator, Operator
  | LeftParen, LeftParen | RightParen, RightParen | Comma, Comma => true
  | _, _ => false
  end.

Record Token : Type := mkToken { type : TokenType; value : jsstring }.

Definition in_range (lo hi c : N) : bool := N.leb lo c && N.leb c hi.

(** The class [\s] of a JavaScript regular expression: WhiteSpace and
    LineTerminator code points. *)
Definition is_space (c : jschar) : bool :=
  in_range 9 13 c || N.eqb c 32 || N.eqb c 160 || N.eqb c 5760
  || in_range 8192 8202 c || N.eqb c 8232 || N.eqb c 8233
  || N.eqb c 8239 || N.eqb c 8287 || N.eqb c 12288 || N.eqb c 65279.

(** [\d] *)
Definition is_digit (c : jschar) : bool := in_range 48 57 c.
(** [[a-zA-Z_]] *)
Definition is_ident_start (c : jschar) : bool :=
  in_range 97 122 c || in_range 65 90 c || N.eqb c 95.
(** [[a-zA-Z0-9_]] *)
Definition is_ident_char (c : jschar) : bool :=
  in_range 97 122 c || in_range 65 90 c || in_range 48 57 c || N.eqb c 95.
(** [[+\-*/^]] *)
Definition is_operator_char (c : jschar) : bool :=
  N.eqb c 43 || N.eqb c 45 || N.eqb c 42 || N.eqb c 47 || N.eqb c 94.
(** [[+\-*/^()]] *)
Definition is_punct_char (c : jschar) : bool :=
  is_operator_char c || N.eqb c 40 || N.eqb c 41.

(** [input.replace(/\s+/g, '')]: every whitespace character is removed. *)
Definition remove_whitespace (input : jsstring) : jsstring :=
  filter (fun c => negb (is_space c)) input.

(** The longest prefix of [s] whose characters satisfy [p], and what
    follows it: a greedy [p*]. *)
Fixpoint span (p : jschar -> bool) (s : jsstring) : jsstring * jsstring :=
  match s with
  | c :: t =>
      if p c then let (a, r) := span p t in (c :: a, r) else ([], s)
  | [] => ([], [])
  end.

(** The four alternatives of [TOKEN_REGEX], each tried at the start of [s];
    a match returns the lexeme and the rest of the string. *)
Definition match_identifier (s : jsstring) : option (jsstring * jsstring) :=
  match s with
  | c :: t =>
      if is_ident_start c
      then let (a, r) := span is_ident_char t in Some (c :: a, r)
      else None
  | [] => None
  end.

Definition match_number (s : jsstring) : option (jsstring * jsstring) :=
  let (ds, r) := span is_digit s in
  match ds with
  | [] => None
  | _ :: _ =>
      match r with
      | c :: r' =>
          if N.eqb c 46
          then let (fs, r'') := span is_digit r' in Some (ds ++ c :: fs, r'')
          else Some (ds, r)
      | [] => Some (ds, [])
      end
  end.

Definition match_punct (s : jsstring) : option (jsstring * jsstring) :=
  match s with
  | c :: t => if is_punct_char c then Some ([c], t) else None
  | [] => None
  end.

Definition match_comma (s : jsstring) : option (jsstring * jsstring) :=
  match s with
  | c :: t => if N.eqb c 44 then Some ([c], t) else None
  | [] => None
  end.

Definition TOKEN_REGEX (s : jsstring) : option (jsstring * jsstring) :=
  match match_identifier s with
  | Some m => Some m
  | None =>
      match match_number s with
      | Some m => Some m
      | None =>
          match match_punct s with
          | Some m => Some m
          | None => match_comma s
          end
      end
  end.

(** A character at which some alternative of [TOKEN_REGEX] starts. *)
Definition starts_token (c : jschar) : bool :=
  is_ident_start c || is_digit c || is_punct_char c || N.eqb c 44.

(** The scan of a global regular expression: at each position the
    expression is tried; on a match the lexeme is collected and the scan
    resumes after it, otherwise the scan resumes ONE CHARACTER FURTHER.
    [fuel] bounds the number of positions visited. *)
Fixpoint match_all (fuel : nat) (s : jsstring) : list jsstring :=
  match fuel with
  | O => []
  | S fuel' =>
      match s with
      | [] => []
      | _ :: t =>
          match TOKEN_REGEX s with
          | Some (lexeme, rest) => lexeme :: match_all fuel' rest
          | None => match_all fuel' t
          end
      end
  end.

(** [s.match(TOKEN_REGEX)] for the global expression: the array of all
    matches, or [null] ([None]) when there is none. *)
Definition string_match (s : jsstring) : option (list jsstring) :=
  match match_all (List.length s) s with
  | [] => None
  | ms => Some ms
  end.

(** ** JavaScript numbers *)

Inductive number : Type :=
| Fin (r : R)      (* a finite value *)
| PInf             (* Infinity *)
| NInf             (* -Infinity *)
| NaN.

Definition isNaN (x : number) : bool :=
  match x with NaN => true | _ => false end.

Definition Number_isFinite (x : number) : bool :=
  match x with Fin _ => true | _ => false end.

Definition signed_infinity (positive : bool) : number :=
  if positive then PInf else NInf.

(** Unary [-x] *)
Definition num_neg (x : number) : number :=
  match x with
  | Fin r => Fin (- r)
  | PInf => NInf
  | NInf => PInf
  | NaN => NaN
  end.

(** [x + y] *)
Definition num_add (x y : number) : number :=
  match x, y with
  | NaN, _ | _, NaN => NaN
  | Fin a, Fin b => Fin (a + b)
  | PInf, NInf | NInf, PInf => NaN
  | PInf, _ | _, PInf => PInf
  | NInf, _ | _, NInf => NInf
  end.

(** [x - y] *)
Definition num_sub (x y : number) : number :=
  match x, y with
  | NaN, _ | _, NaN => NaN
  | Fin a, Fin b => Fin (a - b)
  | PInf, PInf | NInf, NInf => NaN
  | PInf, _ | _, NInf => PInf
  | NInf, _ | _, PInf => NInf
  end.

(** An infinity of sign [positive] times the finite [r]: [NaN] at zero. *)
Definition infinity_times (positive : bool) (r : R) : number :=
  if Rlt_dec 0 r then signed_infinity positive
  else if Rlt_dec r 0 then signed_infinity (negb positive)
  else NaN.

(** [x * y] *)
Definition num_mul (x y : number) : number :=
  match x, y with
  | NaN, _ | _, NaN => NaN
  | Fin a, Fin b => Fin (a * b)
  | Fin a, PInf | PInf, Fin a => infinity_times true a
  | Fin a, NInf | NInf, Fin a => infinity_times false a
  | PInf, PInf | NInf, NInf => PInf
  | PInf, NInf | NInf, PInf => NInf
  end.

(** [x / y] *)
Definition num_div (x y : number) : number :=
  match x, y with
  | NaN, _ | _, NaN => NaN
  | Fin a, Fin b =>
      if Req_dec_T b 0
      then (if Rlt_dec 0 a then PInf else if Rlt_dec a 0 then NInf else NaN)
      else Fin (a / b)
  | Fin _, _ => Fin 0
  | PInf, Fin b => if Rlt_dec b 0 then NInf else PInf
  | NInf, Fin b => if Rlt_dec b 0 then PInf else NInf
  | _, _ => NaN
  end.

(** [x === y] on numbers: [NaN] is equal to nothing. *)
Definition num_eqb (x y : number) : bool :=
  match x, y with
  | Fin a, Fin b => if Req_dec_T a b then true else false
  | PInf, PInf | NInf, NInf => true
  | _, _ => false
  end.

Declare Scope number_scope.
Delimit Scope number_scope with number.
Bind Scope number_scope with number.
Infix "+" := num_add : number_scope.
Infix "-" := num_sub : number_scope.
Infix "*" := num_mul : number_scope.
Infix "/" := num_div : number_scope.
Notation "- x" := (num_neg x) : number_scope.
Infix "===" := num_eqb (at level 70, no associativity) : number_scope.

(** *** The [Math] object

    Each function follows its table of special cases in ECMAScript, and
    is the function of real analysis elsewhere. *)
Module Math.

Definition PI : number := Fin Rtrigo1.PI.
Definition E : number := Fin (exp 1).

Definition sqrt (x : number) : number :=
  match x with
  | Fin r => if Rlt_dec r 0 then NaN else Fin (R_sqrt.sqrt r)
  | PInf => PInf
  | NInf | NaN => NaN
  end.

Definition exp (x : number) : number :=
  match x with
  | Fin r => Fin (Rtrigo_def.exp r)
  | PInf => PInf
  | NInf => Fin 0
  | NaN => NaN
  end.

Definition log (x : number) : number :=
  match x with
  | Fin r =>
      if Rlt_dec r 0 then NaN
      else if Req_dec_T r 0 then NInf
      else Fin (ln r)
  | PInf => PInf
  | NInf | NaN => NaN
  end.

Definition cos (x : number) : number :=
  match x with Fin r => Fin (Rtrigo_def.cos r) | _ => NaN end.

Definition sin (x : number) : number :=
  match x with Fin r => Fin (Rtrigo_def.sin r) | _ => NaN end.

Definition cosh (x : number) : number :=
  match x with
  | Fin r => Fin (Rtrigo_def.cosh r)
  | PInf | NInf => PInf
  | NaN => NaN
  end.

Definition sinh (x : number) : number :=
  match x with Fin r => Fin (Rtrigo_def.sinh r) | other => other end.

(** [Math.atan2(y, x)], principal value in (-PI, PI]. *)
Definition atan2 (y x : number) : number :=
  match y, x with
  | NaN, _ | _, NaN => NaN
  | PInf, PInf => Fin (Rtrigo1.PI / 4)
  | PInf, NInf => Fin (3 * Rtrigo1.PI / 4)
  | PInf, Fin _ => Fin (Rtrigo1.PI / 2)
  | NInf, PInf => Fin (- Rtrigo1.PI / 4)
  | NInf, NInf => Fin (- 3 * Rtrigo1.PI / 4)
  | NInf, Fin _ => Fin (- Rtrigo1.PI / 2)
  | Fin _, PInf => Fin 0
  | Fin b, NInf => if Rlt_dec b 0 then Fin (- Rtrigo1.PI) else Fin Rtrigo1.PI
  | Fin b, Fin a =>
      if Rlt_dec 0 a then Fin (atan (b / a))
      else if Rlt_dec a 0
           then (if Rlt_dec b 0 then Fin (atan (b / a) - Rtrigo1.PI)
                 else Fin (atan (b / a) + Rtrigo1.PI))
           else (if Rlt_dec 0 b then Fin (Rtrigo1.PI / 2)
                 else if Rlt_dec b 0 then Fin (- Rtrigo1.PI / 2)
                 else Fin 0)
  end.

Definition is_integer (r : R) : bool :=
  if Req_dec_T (IZR (Int_part r)) r then true else false.

Definition is_odd_integer (r : R) : bool :=
  is_integer r && Z.odd (Int_part r).

(** [Math.pow(base, exponent)] *)
Definition pow (base exponent : number) : number :=
  match exponent with
  | NaN => NaN
  | Fin e =>
      if Req_dec_T e 0 then Fin 1
      else
        match base with
        | NaN => NaN
        | PInf => if Rlt_dec 0 e then PInf else Fin 0
        | NInf =>
            if Rlt_dec 0 e
            then (if is_odd_integer e then NInf else PInf)
            else Fin 0
        | Fin b =>
            if Rlt_dec 0 b then Fin (Rpower b e)
            else if Req_dec_T b 0
                 then (if Rlt_dec 0 e then Fin 0 else PInf)
                 else if is_integer e
                      then (if Z.odd (Int_part e)
                            then Fin (- Rpower (- b) e)
                            else Fin (Rpower (- b) e))
                      else NaN
        end
  | PInf =>
      match base with
      | NaN => NaN
      | PInf | NInf => PInf
      | Fin b =>
          if Rlt_dec 1 (Rabs b) then PInf
          else if Req_dec_T (Rabs b) 1 then NaN
          else Fin 0
      end
  | NInf =>
      match base with
      | NaN => NaN
      | PInf | NInf => Fin 0
      | Fin b =>
          if Rlt_dec 1 (Rabs b) then Fin 0
          else if Req_dec_T (Rabs b) 1 then NaN
          else PInf
      end
  end.

End Math.

(** *** [parseFloat] *)

Definition digit_value (c : jschar) : Z := (Z.of_N c - 48)%Z.

(** The value of a run of decimal digits, most significant first. *)
Definition digits_value (ds : jsstring) : Z :=
  fold_left (fun acc c => (10 * acc + digit_value c)%Z) ds 0%Z.

(** [m * 10^e] *)
Definition decimal (m e : Z) : number :=
  if (0 <=? e)%Z then Fin (IZR (m * 10 ^ e))
  else Fin (IZR m / IZR (10 ^ (- e))).

Fixpoint starts_with (prefix s : jsstring) : bool :=
  match prefix, s with
  | [], _ => true
  | p :: prefix', c :: s' => N.eqb p c && starts_with prefix' s'
  | _ :: _, [] => false
  end.

(** An optional sign: [true] stands for a leading ['-']. *)
Definition read_sign (s : jsstring) : bool * jsstring :=
  match s with
  | c :: t => if N.eqb c 45 then (true, t)
              else if N.eqb c 43 then (false, t)
              else (false, s)
  | [] => (false, [])
  end.

(** ExponentPart: [e] or [E], an optional sign and at least one digit;
    0 when the part is absent or incomplete. *)
Definition read_exponent (s : jsstring) : Z :=
  match s with
  | c :: t =>
      if N.eqb c 101 || N.eqb c 69 then
        let (negative, t') := read_sign t in
        let (ds, _) := span is_digit t' in
        match ds with
        | [] => 0%Z
        | _ => if negative then (- digits_value ds)%Z else digits_value ds
        end
      else 0%Z
  | [] => 0%Z
  end.

(** [parseFloat(s)]: leading whitespace is skipped and the longest prefix
    that is a decimal literal is read; [NaN] when there is none. *)
Definition parseFloat (s : jsstring) : number :=
  let (_, trimmed) := span is_space s in
  let (negative, body) := read_sign trimmed in
  let signed (m : Z) : Z := if negative then (- m)%Z else m in
  if starts_with (str "Infinity") body then signed_infinity (negb negative)
  else
    let (ip, r1) := span is_digit body in
    match r1 with
    | c :: r1' =>
        if N.eqb c 46 then
          let (fp, r2) := span is_digit r1' in
          match ip, fp with
          | [], [] => NaN
          | _, _ =>
              decimal (signed (digits_value (ip ++ fp)))
                      (read_exponent r2 - Z.of_nat (List.length fp))
          end
        else
          match ip with
          | [] => NaN
          | _ => decimal (signed (digits_value ip)) (read_exponent r1)
          end
    | [] =>
        match ip with
        | [] => NaN
        | _ => decimal (signed (digits_value ip)) 0
        end
    end.

(** *** [tokenize] *)

(** The callback of [matches.map]: the kind of a matched lexeme. *)
Definition classify (value : jsstring) : Token :=
  if negb (isNaN (parseFloat value)) then mkToken Number value
  else if existsb is_operator_char value then mkToken Operator value
  else if streq value (str "(") then mkToken LeftParen value
  else if streq value (str ")") then mkToken RightParen value
  else if streq value (str ",") then mkToken Comma value
  else mkToken Identifier value.

Definition tokenize (input : jsstring) : result (list Token) :=
  match input with
  | [] => Err FunctionCannotBeEmpty             (* if (!input) *)
  | _ :: _ =>
      match string_match (remove_whitespace input) with
      | None => Err InvalidCharacters            (* if (!matches) *)
      | Some matches => Ok (map classify matches)
      end
  end.

(** ** Complex numbers (complex.ts) *)

Record Complex : Type := mkComplex { re : number; im : number }.

Module ComplexOps.

(** [new Complex(re, im)] *)
Definition new (re im : number) : Complex := mkComplex re im.

Definition mag (this : Complex) : number :=
  Math.sqrt (re this * re this + im this * im this)%number.
Definition mag2 (this : Complex) : number :=
  (re this * re this + im this * im this)%number.
Definition arg (this : Complex) : number :=
  Math.atan2 (im this) (re this).

Definition add (a b : Complex) : Complex :=
  new (re a + re b)%number (im a + im b)%number.
Definition sub (a b : Complex) : Complex :=
  new (re a - re b)%number (im a - im b)%number.
Definition mul (a b : Complex) : Complex :=
  new (re a * re b - im a * im b)%number
      (re a * im b + im a * re b)%number.
Definition inv (z : Complex) : Complex :=
  let d := (re z * re z + im z * im z)%number in
  if (d === Fin 0)%number then new PInf PInf
  else new (re z / d)%number (- im z / d)%number.
Definition div (a b : Complex) : Complex :=
  mul a (inv b).
Definition pow (z p : Complex) : Complex :=
  if (re z === Fin 0)%number && (im z === Fin 0)%number
  then new (Fin 0) (Fin 0)
  else
    let r := mag z in
    let theta := arg z in
    let log_r := Math.log r in
    let newMag := (Math.pow r (re p) * Math.exp (- im p * theta))%number in
    let newAngle := (re p * theta + im p * log_r)%number in
    new (newMag * Math.cos newAngle)%number
        (newMag * Math.sin newAngle)%number.
Definition exp (z : Complex) : Complex :=
  let e_re := Math.exp (re z) in
  new (e_re * Math.cos (im z))%number (e_re * Math.sin (im z))%number.
Definition log (z : Complex) : Complex :=
  new (Math.log (mag z)) (arg z).
Definition sqrt (z : Complex) : Complex :=
  pow z (new (Fin (5 / 10)) (Fin 0)).
Definition sin (z : Complex) : Complex :=
  new (Math.sin (re z) * Math.cosh (im z))%number
      (Math.cos (re z) * Math.sinh (im z))%number.
Definition cos (z : Complex) : Complex :=
  new (Math.cos (re z) * Math.cosh (im z))%number
      (- Math.sin (re z) * Math.sinh (im z))%number.
Definition sinh (z : Complex) : Complex :=
  new (Math.sinh (re z) * Math.cos (im z))%number
      (Math.cosh (re z) * Math.sin (im z))%number.
Definition cosh (z : Complex) : Complex :=
  new (Math.cosh (re z) * Math.cos (im z))%number
      (Math.sinh (re z) * Math.sin (im z))%number.

End ComplexOps.

(** The values that the properties name. *)
Definition zero : Complex := mkComplex (Fin 0) (Fin 0).
Definition infinite_sentinel : Complex := mkComplex PInf PInf.

(** The complex number of real part [x] and imaginary part 0. *)
Definition real (x : R) : Complex := mkComplex (Fin x) (Fin 0).

(** ** The shader library (complex.glsl)

    A [vec2] is modelled by [Complex] ([x] is [re], [y] is [im]); the
    built-ins [length], [atan], [log], [pow], [exp], [cos] and [sin] are
    read as their counterparts of [Math]. *)
Module Glsl.

(** [vec2(x)]: both components set to [x]. *)
Definition vec2_splat (x : number) : Complex := mkComplex x x.

(** [length(z)] *)
Definition length (z : Complex) : number :=
  Math.sqrt (re z * re z + im z * im z)%number.

(** [s * v] for a float [s] and a [vec2] [v] *)
Definition scale (s : number) (v : Complex) : Complex :=
  mkComplex (s * re v)%number (s * im v)%number.

Definition c_pow (z p : Complex) : Complex :=
  let r := length z in
  if (r === Fin 0)%number then vec2_splat (Fin 0)
  else
    let theta := Math.atan2 (im z) (re z) in
    let log_r := Math.log r in
    let new_mag := (Math.pow r (re p) * Math.exp (- im p * theta))%number in
    let new_angle := (re p * theta + im p * log_r)%number in
    scale new_mag (mkComplex (Math.cos new_angle) (Math.sin new_angle)).

End Glsl.

(** ** Symbol tables (definitions.ts)

    The three tables are object literals. Reading [table[key]] finds an
    own property, or else a property inherited from [Object.prototype]
    (a function, or the prototype object itself for [__proto__]: truthy,
    and with none of the fields of a table entry), or else [undefined]. *)

Inductive property (A : Type) : Type :=
| Own (a : A)
| Inherited
| Undefined.
Arguments Own {A} a.
Arguments Inherited {A}.
Arguments Undefined {A}.

Definition Object_prototype : list jsstring :=
  map str [ "constructor"; "hasOwnProperty"; "isPrototypeOf";
            "propertyIsEnumerable"; "toLocaleString"; "toString"; "valueOf";
            "__proto__"; "__defineGetter__"; "__defineSetter__";
            "__lookupGetter__"; "__lookupSetter__" ]%string.

Fixpoint own_property {A : Type} (table : list (jsstring * A)) (key : jsstring)
  : option A :=
  match table with
  | [] => None
  | (k, a) :: table' => if streq k key then Some a else own_property table' key
  end.

(** [table[key]] *)
Definition get {A : Type} (table : list (jsstring * A)) (key : jsstring)
  : property A :=
  match own_property table key with
  | Some a => Own a
  | None => if existsb (streq key) Object_prototype then Inherited else Undefined
  end.

(** Truthiness of [table[key]]. *)
Definition truthy {A : Type} (p : property A) : bool :=
  match p with Undefined => false | _ => true end.

Inductive Associativity : Type := left_assoc | right_assoc.

(** The field [js] holds a static method of [Complex]; it is kept by its
    name, which is what the code generator reads ([js.name]). *)
Record OperatorInfo : Type := mkOperatorInfo {
  precedence : nat;
  associativity : Associativity;
  op_glsl : jsstring;
  op_js : jsstring
}.

Record FunctionInfo : Type := mkFunctionInfo {
  arity : nat;
  fn_glsl : jsstring;
  fn_js : jsstring
}.

Record ConstantInfo : Type := mkConstantInfo {
  const_value : Complex;
  const_glsl : jsstring
}.

Definition OPERATORS : list (jsstring * OperatorInfo) :=
  [ (str "+", mkOperatorInfo 2 left_assoc (str "c_add") (str "add"));
    (str "-", mkOperatorInfo 2 left_assoc (str "c_sub") (str "sub"));
    (str "*", mkOperatorInfo 3 left_assoc (str "c_mul") (str "mul"));
    (str "/", mkOperatorInfo 3 left_assoc (str "c_div") (str "div"));
    (str "^", mkOperatorInfo 4 right_assoc (str "c_pow") (str "pow")) ].

Definition FUNCTIONS : list (jsstring * FunctionInfo) :=
  [ (str "sin", mkFunctionInfo 1 (str "c_sin") (str "sin"));
    (str "cos", mkFunctionInfo 1 (str "c_cos") (str "cos"));
    (str "sinh", mkFunctionInfo 1 (str "c_sinh") (str "sinh"));
    (str "cosh", mkFunctionInfo 1 (str "c_cosh") (str "cosh"));
    (str "exp", mkFunctionInfo 1 (str "c_exp") (str "exp"));
    (str "log", mkFunctionInfo 1 (str "c_log") (str "log"));
    (str "sqrt", mkFunctionInfo 1 (str "c_sqrt") (str "sqrt"));
    (str "pow", mkFunctionInfo 2 (str "c_pow") (str "pow")) ].

Definition CONSTANTS : list (jsstring * ConstantInfo) :=
  [ (str "pi", mkConstantInfo (ComplexOps.new Math.PI (Fin 0))
                 (str "vec2(3.141592653589793, 0.0)"));
    (str "e", mkConstantInfo (ComplexOps.new Math.E (Fin 0))
                 (str "vec2(2.718281828459045, 0.0)"));
    (str "i", mkConstantInfo (ComplexOps.new (Fin 0) (Fin 1))
                 (str "vec2(0.0, 1.0)")) ].

(** ** Abstract syntax (ast.ts) *)

#[warnings="-register-all"] Inductive ASTNode : Type :=
| Constant (value : number)
| VariableNode (name : jsstring)   (* type: 'Variable' *)
| BinaryOperation (operator : jsstring) (left right : ASTNode)
| FunctionCall (functionName : jsstring) (args : list ASTNode)
| UnaryMinus (operand : ASTNode).

(** Induction over a tree, the arguments of a call taken as a list. *)
Section ASTNode_induction.

Variable P : ASTNode -> Prop.
Hypothesis P_Constant : forall value, P (Constant value).
Hypothesis P_Variable : forall name, P (VariableNode name).
Hypothesis P_BinaryOperation :
  forall operator l r, P l -> P r -> P (BinaryOperation operator l r).
Hypothesis P_FunctionCall :
  forall functionName args, Forall P args -> P (FunctionCall functionName args).
Hypothesis P_UnaryMinus : forall operand, P operand -> P (UnaryMinus operand).

Fixpoint ASTNode_nested_ind (node : ASTNode) : P node :=
  match node with
  | Constant value => P_Constant value
  | VariableNode name => P_Variable name
  | BinaryOperation operator l r =>
      P_BinaryOperation operator (ASTNode_nested_ind l) (ASTNode_nested_ind r)
  | FunctionCall functionName args =>
      P_FunctionCall functionName
        ((fix all (nodes : list ASTNode) : Forall P nodes :=
            match nodes with
            | [] => Forall_nil P
            | n :: nodes' => Forall_cons n (ASTNode_nested_ind n) (all nodes')
            end) args)
  | UnaryMinus operand => P_UnaryMinus (ASTNode_nested_ind operand)
  end.

End ASTNode_induction.

(** ** Parser (parser.ts) *)

(** An element of [operatorStack]: a token, or the marker
    [{ type: 'UnaryMinus' }]. *)
Inductive StackItem : Type :=
| Tok (t : Token)
| UnaryMinusMarker.

(** [applyOperator(outputQueue, op)]; the new [outputQueue] is returned. *)
Definition applyOperator (outputQueue : list ASTNode) (op : StackItem)
  : result (list ASTNode) :=
  match op with
  | UnaryMinusMarker =>
      match outputQueue with
      | [] => Err InvalidUnaryMinus
      | operand :: rest => Ok (UnaryMinus operand :: rest)
      end
  | Tok t =>
      if TokenType_eqb (type t) Identifier then
        (* function call *)
        match get FUNCTIONS (value t) with
        | Undefined => Err TypeError        (* funcInfo.arity on undefined *)
        | Inherited =>
            (* arity is undefined: [length < undefined] is false, and
               [splice(NaN)] removes every element *)
            Ok [FunctionCall (value t) (rev outputQueue)]
        | Own funcInfo =>
            if List.length outputQueue <? arity funcInfo
            then Err (NotEnoughArguments (value t))
            else Ok (FunctionCall (value t) (rev (firstn (arity funcInfo) outputQueue))
                       :: skipn (arity funcInfo) outputQueue)
        end
      else
        (* binary operator *)
        match outputQueue with
        | right' :: left' :: rest =>
            Ok (BinaryOperation (value t) left' right' :: rest)
        | _ => Err (MissingOperand (value t))
        end
  end.

(** The test of the inner loop of the [Operator] case: whether [op2], on
    top of the stack, is reduced before [op1] is pushed. *)
Definition pops_before (op1 op2 : jsstring) : result bool :=
  match get OPERATORS op1 with
  | Undefined => Err TypeError
  | Inherited => Ok false       (* associativity is undefined *)
  | Own info1 =>
      match get OPERATORS op2 with
      | Undefined => Err TypeError
      | Inherited => Ok false   (* a comparison with undefined is false *)
      | Own info2 =>
          match associativity info1 with
          | left_assoc => Ok (precedence info1 <=? precedence info2)
          | right_assoc => Ok (precedence info1 <? precedence info2)
          end
      end
  end.

(** The [while] loop of the [Operator] case, for the incoming [op1]. *)
Fixpoint reduce_operators (op1 : jsstring) (outputQueue : list ASTNode)
    (operatorStack : list StackItem)
  : result (list ASTNode * list StackItem) :=
  match operatorStack with
  | [] => Ok (outputQueue, [])
  | topOp :: below =>
      match topOp with
      | UnaryMinusMarker =>
          q <- applyOperator outputQueue topOp ;;
          reduce_operators op1 q below
      | Tok t =>
          match type t with
          | LeftParen => Ok (outputQueue, operatorStack)
          | Identifier => Ok (outputQueue, operatorStack)    (* function call *)
          | _ =>
              pop <- pops_before op1 (value t) ;;
              if pop : bool then
                q <- applyOperator outputQueue topOp ;;
                reduce_operators op1 q below
              else Ok (outputQueue, operatorStack)
          end
      end
  end.

Definition is_LeftParen (item : StackItem) : bool :=
  match item with
  | Tok t => TokenType_eqb (type t) LeftParen
  | UnaryMinusMarker => false
  end.

Definition is_Identifier (item : StackItem) : bool :=
  match item with
  | Tok t => TokenType_eqb (type t) Identifier
  | UnaryMinusMarker => false
  end.

(** The [RightParen] case: reduce down to the matching [LeftParen], drop
    it, and reduce a pending function call. *)
Fixpoint close_paren (outputQueue : list ASTNode)
    (operatorStack : list StackItem)
  : result (list ASTNode * list StackItem) :=
  match operatorStack with
  | [] => Err MismatchedParentheses
  | topOp :: below =>
      if is_LeftParen topOp then
        match below with
        | top :: below' =>
            if is_Identifier top
            then q <- applyOperator outputQueue top ;; Ok (q, below')
            else Ok (outputQueue, below)
        | [] => Ok (outputQueue, [])
        end
      else
        q <- applyOperator outputQueue topOp ;;
        close_paren q below
  end.

(** The final loop: the stack is emptied into the output. *)
Fixpoint drain (outputQueue : list ASTNode) (operatorStack : list StackItem)
  : result (list ASTNode) :=
  match operatorStack with
  | [] => Ok outputQueue
  | op :: below =>
      if is_LeftParen op then Err MismatchedParentheses
      else q <- applyOperator outputQueue op ;; drain q below
  end.

Record ParserState : Type := mkParserState {
  outputQueue : list ASTNode;
  operatorStack : list StackItem;
  lastToken : option Token
}.

Definition is_value_type (ty : TokenType) : bool :=
  match ty with Number | Identifier => true | _ => false end.

(** [lastToken?.type] satisfies [p] *)
Definition last_type_is (p : TokenType -> bool) (last : option Token) : bool :=
  match last with
  | Some l => p (type l)
  | None => false
  end.

(** One iteration of the [for] loop of [parseTokens]. *)
Definition parse_step (st : ParserState) (token : Token) : result ParserState :=
  match
    (if is_value_type (type token) && last_type_is is_value_type (lastToken st)
     then match lastToken st with
          | Some l => Some (UnexpectedToken (value token) (value l))
          | None => None
          end
     else if TokenType_eqb (type token) Operator
             && last_type_is (TokenType_eqb Operator) (lastToken st)
     then match lastToken st with
          | Some l => Some (OperatorCannotFollow (value token) (value l))
          | None => None
          end
     else None)
  with
  | Some e => Err e
  | None =>
      ' (q, s) <-
        match type token with
        | Number =>
            Ok (Constant (parseFloat (value token)) :: outputQueue st,
                operatorStack st)
        | Identifier =>
            if truthy (get FUNCTIONS (value token))
            then Ok (outputQueue st, Tok token :: operatorStack st)
            else if truthy (get CONSTANTS (value token))
                    || streq (value token) (str "z")
            then Ok (VariableNode (value token) :: outputQueue st, operatorStack st)
            else Err (UnknownIdentifier (value token))
        | Operator =>
            if streq (value token) (str "-")
               && match lastToken st with
                  | None => true
                  | Some l => TokenType_eqb (type l) Operator
                              || TokenType_eqb (type l) LeftParen
                  end
            then Ok (outputQueue st, UnaryMinusMarker :: operatorStack st)
            else
              ' (q, s) <- reduce_operators (value token) (outputQueue st)
                            (operatorStack st) ;;
              Ok (q, Tok token :: s)
        | LeftParen => Ok (outputQueue st, Tok token :: operatorStack st)
        | RightParen => close_paren (outputQueue st) (operatorStack st)
        | Comma => Ok (outputQueue st, operatorStack st)
        end ;;
      Ok (mkParserState q s (Some token))
  end.

Fixpoint parse_loop (st : ParserState) (tokens : list Token)
  : result ParserState :=
  match tokens with
  | [] => Ok st
  | token :: tokens' => st' <- parse_step st token ;; parse_loop st' tokens'
  end.

Definition parseTokens (tokens : list Token) : result ASTNode :=
  st <- parse_loop (mkParserState [] [] None) tokens ;;
  q <- drain (outputQueue st) (operatorStack st) ;;
  match q with
  | [root] => Ok root
  | _ => Err InvalidExpressionStructure
  end.

(** ** Code generation (codegen.ts) *)

(** The JavaScript expressions that [generateJs] writes. *)
#[warnings="-register-all"] Inductive JsExpr : Type :=
| JsNewComplex (re im : number)                    (* new Complex(re, im) *)
| JsZ                                              (* z *)
| JsStaticCall (method : jsstring) (args : list JsExpr).   (* Complex.method(args) *)

(** [table[key].js.name.split('.').pop()] *)
Definition js_name {A : Type} (field : A -> jsstring) (p : property A)
  : result jsstring :=
  match p with
  | Own info => Ok (field info)
  | Inherited => Err TypeError        (* .js is undefined: .name throws *)
  | Undefined => Err TypeError
  end.

Fixpoint generateJsNode (node : ASTNode) : result JsExpr :=
  match node with
  | Constant value => Ok (JsNewComplex value (Fin 0))
  | VariableNode name =>
      match get CONSTANTS name with
      | Own info => Ok (JsNewComplex (re (const_value info)) (im (const_value info)))
      | Inherited => Err TypeError    (* c is undefined: c.re throws *)
      | Undefined => Ok JsZ
      end
  | BinaryOperation operator left' right' =>
      l <- generateJsNode left' ;;
      r <- generateJsNode right' ;;
      opName <- js_name op_js (get OPERATORS operator) ;;
      Ok (JsStaticCall opName [l; r])
  | FunctionCall functionName args =>
      args' <- (fix map_args (nodes : list ASTNode) : result (list JsExpr) :=
                  match nodes with
                  | [] => Ok []
                  | n :: nodes' =>
                      e <- generateJsNode n ;;
                      es <- map_args nodes' ;;
                      Ok (e :: es)
                  end) args ;;
      funcName <- js_name fn_js (get FUNCTIONS functionName) ;;
      Ok (JsStaticCall funcName args')
  | UnaryMinus operand =>
      e <- generateJsNode operand ;;
      Ok (JsStaticCall (str "mul") [JsNewComplex (- Fin 1)%number (Fin 0); e])
  end.

Definition generateJs (ast : ASTNode) : result JsExpr := generateJsNode ast.

(** The shader expressions that [generateGlsl] writes. *)
#[warnings="-register-all"] Inductive GlslExpr : Type :=
| GlslVec2 (value : number)          (* vec2(<value.toPrecision(15)>, 0.0) *)
| GlslText (text : jsstring)         (* a literal of the constant table, or z *)
| GlslUndefined                      (* the text "undefined" *)
| GlslCall (callee : option jsstring) (args : list GlslExpr).
      (* callee(args); the callee [None] is printed "undefined" *)

(** [info.glsl] for [info = table[key]] *)
Definition glsl_name {A : Type} (field : A -> jsstring) (p : property A)
  : result (option jsstring) :=
  match p with
  | Own info => Ok (Some (field info))
  | Inherited => Ok None
  | Undefined => Err TypeError
  end.

Fixpoint generateGlslNode (node : ASTNode) : result GlslExpr :=
  match node with
  | Constant value => Ok (GlslVec2 value)
  | VariableNode name =>
      match get CONSTANTS name with
      | Own info => Ok (GlslText (const_glsl info))
      | Inherited => Ok GlslUndefined
      | Undefined => Ok (GlslText (str "z"))
      end
  | BinaryOperation operator left' right' =>
      l <- generateGlslNode left' ;;
      r <- generateGlslNode right' ;;
      callee <- glsl_name op_glsl (get OPERATORS operator) ;;
      Ok (GlslCall callee [l; r])
  | FunctionCall functionName args =>
      args' <- (fix map_args (nodes : list ASTNode) : result (list GlslExpr) :=
                  match nodes with
                  | [] => Ok []
                  | n :: nodes' =>
                      e <- generateGlslNode n ;;
                      es <- map_args nodes' ;;
                      Ok (e :: es)
                  end) args ;;
      callee <- glsl_name fn_glsl (get FUNCTIONS functionName) ;;
      Ok (GlslCall callee args')
  | UnaryMinus operand =>
      e <- generateGlslNode operand ;;
      Ok (GlslCall (Some (str "c_mul")) [GlslText (str "vec2(-1.0, 0.0)"); e])
  end.

(** The body [b] of [vec2 F_Z(vec2 z) { return b; }]. *)
Definition generateGlsl (ast : ASTNode) : result GlslExpr := generateGlslNode ast.

(** ** The [Expression] facade (expression.ts) *)

(** A value of the field [jsFunction]: the initial [(z) => z], or
    [new Function('z', 'Complex', `return ${jsCode}`)]. *)
Inductive JsFunction : Type :=
| IdentityFunction
| NewFunction (jsCode : JsExpr).

(** [Complex[method](...args)]: a missing argument is [undefined], whose
    fields cannot be read; arguments in excess are ignored. *)
Definition call_static (method : jsstring) (args : list Complex) : result Complex :=
  let unary (f : Complex -> Complex) :=
    match args with
    | a :: _ => Ok (f a)
    | [] => Err TypeError
    end in
  let binary (f : Complex -> Complex -> Complex) :=
    match args with
    | a :: b :: _ => Ok (f a b)
    | _ => Err TypeError
    end in
  if streq method (str "add") then binary ComplexOps.add
  else if streq method (str "sub") then binary ComplexOps.sub
  else if streq method (str "mul") then binary ComplexOps.mul
  else if streq method (str "inv") then unary ComplexOps.inv
  else if streq method (str "div") then binary ComplexOps.div
  else if streq method (str "pow") then binary ComplexOps.pow
  else if streq method (str "exp") then unary ComplexOps.exp
  else if streq method (str "log") then unary ComplexOps.log
  else if streq method (str "sqrt") then unary ComplexOps.sqrt
  else if streq method (str "sin") then unary ComplexOps.sin
  else if streq method (str "cos") then unary ComplexOps.cos
  else if streq method (str "sinh") then unary ComplexOps.sinh
  else if streq method (str "cosh") then unary ComplexOps.cosh
  else Err TypeError.

(** The value of a generated expression at the argument [z]. *)
Fixpoint run (e : JsExpr) (z : Complex) : result Complex :=
  match e with
  | JsNewComplex a b => Ok (ComplexOps.new a b)
  | JsZ => Ok z
  | JsStaticCall method args =>
      vs <- (fix run_args (es : list JsExpr) : result (list Complex) :=
               match es with
               | [] => Ok []
               | e' :: es' =>
                   v <- run e' z ;;
                   vs <- run_args es' ;;
                   Ok (v :: vs)
               end) args ;;
      call_static method vs
  end.

(** [f(z, Complex)] *)
Definition call (f : JsFunction) (z : Complex) : result Complex :=
  match f with
  | IdentityFunction => Ok z
  | NewFunction jsCode => run jsCode z
  end.

Record Expression : Type := mkExpression {
  ast : option ASTNode;
  jsFunction : JsFunction
}.

Module ExpressionOps.

(** [this.parse(source)]: the object after the call, and the exception
    when one was thrown. The fields are assigned one after the other, as
    in the source. *)
Definition parse (this : Expression) (source : jsstring)
  : Expression * option Error :=
  match tokenize source with
  | Err e => (this, Some e)
  | Ok tokens =>
      match parseTokens tokens with
      | Err e => (this, Some e)
      | Ok root =>
          let this1 := mkExpression (Some root) (jsFunction this) in
          match generateJs root with
          | Err e => (this1, Some e)
          | Ok jsCode => (mkExpression (Some root) (NewFunction jsCode), None)
          end
      end
  end.

(** [new Expression(source)]; [None] is a call without argument. An
    exception of [parse] leaves no object. *)
Definition new (source : option jsstring) : result Expression :=
  let this := mkExpression None IdentityFunction in
  let src := match source with
             | Some (c :: s) => c :: s
             | _ => str "z"
             end in
  match parse this src with
  | (this', None) => Ok this'
  | (_, Some e) => Err e
  end.

Definition evaluate (this : Expression) (z : Complex) : result Complex :=
  call (jsFunction this) z.

(** [getGlslCode()]: the body returned by [F_Z]. *)
Definition getGlslCode (this : Expression) : result GlslExpr :=
  match ast this with
  | None => Ok (GlslText (str "z"))
  | Some root => generateGlsl root
  end.

End ExpressionOps.

(** [parse] of the whole pipeline without the facade: source text to AST. *)
Definition parse_source (source : jsstring) : result ASTNode :=
  tokens <- tokenize source ;; parseTokens tokens.

(** ** The invariant of the parser's output *)

(** [name] is a key of [table] (an own property). *)
Definition is_key {A : Type} (table : list (jsstring * A)) (name : jsstring) : bool :=
  match own_property table name with
  | Some _ => true
  | None => false
  end.

(** Every name of the tree is resolved by the tables: a function name is
    a key of [FUNCTIONS] and has as many arguments as its arity, a variable
    is a key of [CONSTANTS] or the free variable [z], an operator is a key
    of [OPERATORS]. *)
Fixpoint well_formed (node : ASTNode) : bool :=
  match node with
  | Constant _ => true
  | VariableNode name => is_key CONSTANTS name || streq name (str "z")
  | BinaryOperation operator left' right' =>
      is_key OPERATORS operator && well_formed left' && well_formed right'
  | FunctionCall functionName args =>
      match own_property FUNCTIONS functionName with
      | Some funcInfo =>
          (List.length args =? arity funcInfo) && forallb well_formed args
      | None => false
      end
  | UnaryMinus operand => well_formed operand
  end.

(** A token that the tables resolve the way the parser reads them: an
    identifier is not the name of a property of [Object.prototype], and an
    operator is a key of [OPERATORS]. *)
Definition regular (t : Token) : bool :=
  match type t with
  | Identifier => negb (existsb (streq (value t)) Object_prototype)
  | Operator => is_key OPERATORS (value t)
  | _ => true
  end.

(** What the parser keeps on [operatorStack] when the tokens are regular. *)
Definition pending_ok (item : StackItem) : bool :=
  match item with
  | UnaryMinusMarker => true
  | Tok t =>
      match type t with
      | Identifier => is_key FUNCTIONS (value t)
      | Operator => is_key OPERATORS (value t)
      | LeftParen => true
      | _ => false
      end
  end.

Definition state_ok (st : ParserState) : Prop :=
  forallb well_formed (outputQueue st) = true
  /\ forallb pending_ok (operatorStack st) = true.

(** The facade after [new Expression()]: the default source [z]. *)
Definition default_expression : Expression :=
  mkExpression (Some (VariableNode (str "z"))) (NewFunction JsZ).

(** No identifier of the token sequence is the name of a property of
    [Object.prototype]. *)
Definition no_inherited_name (tokens : list Token) : bool :=
  forallb (fun t => negb (TokenType_eqb (type t) Identifier
                          && existsb (streq (value t)) Object_prototype))
          tokens.

(** A source text compiled by a fresh facade, [new Expression(source)],
    and evaluated at [z]. *)
Definition evaluate_source (source : jsstring) (z : Complex) : result Complex :=
  this <- ExpressionOps.new (Some source) ;; ExpressionOps.evaluate this z.

(** [s.trim()]: whitespace removed at both ends. *)
Fixpoint trimStart (s : jsstring) : jsstring :=
  match s with
  | c :: t => if is_space c then trimStart t else s
  | [] => []
  end.

Definition trim (s : jsstring) : jsstring :=
  rev (trimStart (rev (trimStart s))).

(** ** Auxiliary predicates of the further properties *)

(** An operator token whose value is a key of [OPERATORS], as the
    tokenizer makes them. *)
Definition lexical (t : Token) : bool :=
  match type t with
  | Operator => is_key OPERATORS (value t)
  | _ => true
  end.

(** What the parser keeps on [operatorStack] when the tokens are lexical:
    an identifier there passed the test [FUNCTIONS[value]]. *)
Definition pending_known (item : StackItem) : bool :=
  match item with
  | UnaryMinusMarker => true
  | Tok t =>
      match type t with
      | Identifier => truthy (get FUNCTIONS (value t))
      | Operator => is_key OPERATORS (value t)
      | LeftParen => true
      | _ => false
      end
  end.

(** A result that is no [TypeError], and satisfies [P] when it is a value. *)
Definition no_TypeError {A : Type} (P : A -> Prop) (r : result A) : Prop :=
  match r with
  | Ok a => P a
  | Err e => e <> TypeError
  end.

(** ** The range in which the exact arithmetic describes complex.ts

    [Fin] carries an exact real, while the program computes in 64-bit
    floats: there a square overflows to [Infinity] above about 1.3e154 and
    underflows to 0 below about 1.5e-162, so that [mag], [inv], [log] and
    [pow] leave the exact values at finite numbers that large or that
    small. A finite complex number [(x, y)] is of moderate size when its
    squared modulus lies between 1e-100 and 1e100: then [x*x + y*y], its
    root, its logarithm, the quotients by it and the powers 1/2, 1 and 2
    of the modulus are far from both ends of the range of the floats, and
    the program differs from the exact values by rounding only. *)
Definition moderate (x y : R) : Prop :=
  (1e-100 <= x * x + y * y <= 1e100)%R.

(** Zero is tested for by the program before it divides or takes a
    logarithm, and a zero of either sign passes the test. *)
Definition zero_or_moderate (x y : R) : Prop :=
  (x = 0 /\ y = 0)%R \/ moderate x y.

(** ** The view of a plot: pan, zoom and the pointer (app.ts, ui.ts)

    Only the arithmetic on the domain is modelled; drawing, the axis
    markers and the formatting of the panel texts are left out. *)

(** [x < y] on numbers: false as soon as one side is [NaN]. *)
Definition num_ltb (x y : number) : bool :=
  match x, y with
  | NaN, _ | _, NaN => false
  | Fin a, Fin b => if Rlt_dec a b then true else false
  | Fin _, PInf | NInf, Fin _ | NInf, PInf => true
  | Fin _, NInf | PInf, _ | NInf, NInf => false
  end.

(** [Domain]: the name and [values = [xmin, xmax, ymin, ymax]]. *)
Record Domain : Type := mkDomain {
  domain_name : jsstring;
  xmin : number;      (* values[0] *)
  xmax : number;      (* values[1] *)
  ymin : number;      (* values[2] *)
  ymax : number       (* values[3] *)
}.

Record PanDelta : Type := mkPanDelta { pan_dx : number; pan_dy : number }.

Record ZoomData : Type := mkZoomData {
  zoom_factor : number;
  zoom_x : number;
  zoom_y : number
}.

(** The fields of a mouse or wheel event that the listeners read. *)
Record MouseEvent : Type := mkMouseEvent {
  clientX : number;
  clientY : number;
  deltaY : number
}.

(** A canvas: its bounding rectangle and its client size. *)
Record Canvas : Type := mkCanvas {
  rect_left : number;
  rect_top : number;
  rect_width : number;
  rect_height : number;
  clientWidth : number;
  clientHeight : number
}.

Module AppOps.

Definition handlePan (domain : Domain) (panDelta : PanDelta) : Domain :=
  mkDomain (domain_name domain)
    (xmin domain - pan_dx panDelta)%number
    (xmax domain - pan_dx panDelta)%number
    (ymin domain - pan_dy panDelta)%number
    (ymax domain - pan_dy panDelta)%number.

Definition handleZoom (domain : Domain) (zoomData : ZoomData) : Domain :=
  let width := (xmax domain - xmin domain)%number in
  let height := (ymax domain - ymin domain)%number in
  let mouseRe := (xmin domain + zoom_x zoomData * width)%number in
  let mouseIm := (ymin domain + (Fin 1 - zoom_y zoomData) * height)%number in
  let newWidth := (width * zoom_factor zoomData)%number in
  let newHeight := (height * zoom_factor zoomData)%number in
  mkDomain (domain_name domain)
    (mouseRe - zoom_x zoomData * newWidth)%number
    (mouseRe + (Fin 1 - zoom_x zoomData) * newWidth)%number
    (mouseIm - (Fin 1 - zoom_y zoomData) * newHeight)%number
    (mouseIm + zoom_y zoomData * newHeight)%number.

Definition getFunctionValueAt (expression : Expression) (z : Complex)
    (isInfinityPlot : bool) : result Complex :=
  let evalZ := if isInfinityPlot then ComplexOps.inv z else z in
  ExpressionOps.evaluate expression evalZ.

End AppOps.

Module UIManagerOps.

(** The state of the drag: [isDragging] and [lastMousePosition]. *)
Record Drag : Type := mkDrag {
  isDragging : bool;
  lastX : number;
  lastY : number
}.

(** The [mousedown] listener. *)
Definition mousedown (e : MouseEvent) : Drag :=
  mkDrag true (clientX e) (clientY e).

(** The first half of the [mousemove] listener: the new state of the
    drag, and the pan handed to [onPan] while dragging. *)
Definition mousemove (drag : Drag) (canvas : Canvas) (domain : Domain)
    (e : MouseEvent) : Drag * option PanDelta :=
  if isDragging drag then
    let dx := (clientX e - lastX drag)%number in
    let dy := (clientY e - lastY drag)%number in
    let domainWidth := (xmax domain - xmin domain)%number in
    let domainHeight := (ymax domain - ymin domain)%number in
    (mkDrag true (clientX e) (clientY e),
     Some (mkPanDelta (dx * (domainWidth / clientWidth canvas))%number
                      (- dy * (domainHeight / clientHeight canvas))%number))
  else (drag, None).

(** The [wheel] listener: the zoom handed to [onZoom]. *)
Definition wheel (canvas : Canvas) (e : MouseEvent) : ZoomData :=
  let zoomFactor := if num_ltb (deltaY e) (Fin 0)
                    then (Fin 1 / Fin (11 / 10))%number
                    else Fin (11 / 10) in
  let mouseX := ((clientX e - rect_left canvas) / rect_width canvas)%number in
  let mouseY := ((clientY e - rect_top canvas) / rect_height canvas)%number in
  mkZoomData zoomFactor mouseX mouseY.

(** The point [z] of the domain under the pointer, as [updateInfoPanel]
    computes it. *)
Definition pointer (canvas : Canvas) (domain : Domain) (e : MouseEvent) : Complex :=
  let x := (clientX e - rect_left canvas)%number in
  let y := (clientY e - rect_top canvas)%number in
  let sx := (x / clientWidth canvas)%number in
  let sy := (Fin 1 - y / clientHeight canvas)%number in
  let real := (xmin domain + sx * (xmax domain - xmin domain))%number in
  let imag := (ymin domain + sy * (ymax domain - ymin domain))%number in
  ComplexOps.new real imag.

(** What [updateInfoPanel] shows: the values behind the texts. *)
Record InfoPanel : Type := mkInfoPanel {
  infoLocation : jsstring;
  infoZ : Complex;
  infoFz : Complex
}.

Definition updateInfoPanel (canvas : Canvas) (domain : Domain)
    (evaluate : Complex -> bool -> result Complex) (e : MouseEvent)
  : result InfoPanel :=
  let z := pointer canvas domain e in
  let isInfinityPlot := streq (domain_name domain) (str "Infinity Neighborhood") in
  fz <- evaluate z isInfinityPlot ;;
  let displayZ := if isInfinityPlot then ComplexOps.inv z else z in
  Ok (mkInfoPanel (domain_name domain) displayZ fz).

End UIManagerOps.

(** A domain with finite bounds. *)
Definition finite_domain (n : jsstring) (a b c d : R) : Domain :=
  mkDomain n (Fin a) (Fin b) (Fin c) (Fin d).

(** ** The update loop of the application (app.ts, renderer.ts)

    Of a renderer only the domain and the function source of its program
    are kept: [functionSource] is the [glslFunc] of the last call of
    [updateFunctionShader], [None] before the first one. Compiling and
    drawing are not modelled. *)

Record Renderer : Type := mkRenderer {
  domain : Domain;
  functionSource : option GlslExpr
}.

Record App : Type := mkApp {
  expression : Expression;
  finiteRenderer : Renderer;
  infinityRenderer : Renderer;
  errorPanel : option Error       (* the error shown, if any *)
}.

Definition updateFunctionShader (this : Renderer) (glslFunc : GlslExpr) : Renderer :=
  mkRenderer (domain this) (Some glslFunc).

(** [updateAndRedraw()], for the text [funcStr] of the input field. *)
Definition updateAndRedraw (app : App) (funcStr : jsstring) : App :=
  match ExpressionOps.parse (expression app) funcStr with
  | (expression', Some e) =>
      (* catch: the error is displayed, nothing is redrawn *)
      mkApp expression' (finiteRenderer app) (infinityRenderer app) (Some e)
  | (expression', None) =>
      match ExpressionOps.getGlslCode expression' with
      | Err e =>
          mkApp expression' (finiteRenderer app) (infinityRenderer app) (Some e)
      | Ok glslCode =>
          mkApp expression'
            (updateFunctionShader (finiteRenderer app) glslCode)
            (updateFunctionShader (infinityRenderer app) glslCode)
            None
      end
  end.

(** The application before its first update: the default expression and
    two renderers without a program. *)
Definition initial_app : App :=
  mkApp default_expression
    (mkRenderer (mkDomain (str "Finite Domain")
                   (Fin (-2)) (Fin 2) (Fin (-2)) (Fin 2)) None)
    (mkRenderer (mkDomain (str "Infinity Neighborhood")
                   (Fin (-125 / 1000)) (Fin (125 / 1000))
                   (Fin (-125 / 1000)) (Fin (125 / 1000))) None)
    None.

(** What the [try] block of [updateAndRedraw] produces for a text, run
    on a facade of its own: the evaluator that [parse] installs and the
    shader function that [getGlslCode] returns; [None] when one of the two
    calls throws. *)
Definition accepted (funcStr : jsstring) : option (JsFunction * GlslExpr) :=
  match ExpressionOps.parse (mkExpression None IdentityFunction) funcStr with
  | (_, Some _) => None
  | (this, None) =>
      match ExpressionOps.getGlslCode this with
      | Err _ => None
      | Ok glslCode => Some (jsFunction this, glslCode)
      end
  end.

(** The last text of [edits], the texts typed one after the other, that
    is [accepted]. *)
Fixpoint last_accepted (edits : list jsstring) : option (JsFunction * GlslExpr) :=
  match edits with
  | [] => None
  | funcStr :: edits' =>
      match last_accepted edits' with
      | Some latest => Some latest
      | None => accepted funcStr
      end
  end.

(** * Properties *)

(** ** Strings *)

Lemma streq_spec (a b : jsstring) : streq a b = true <-> a = b.
Proof.
  revert b; induction a as [|x a IH]; intros [|y b]; simpl;
    try (split; [discriminate|discriminate]); try tauto.
  rewrite andb_true_iff, N.eqb_eq, IH.
  split; [intros [-> ->]; reflexivity | intros H; inversion H; auto].
Qed.

Lemma streq_refl (a : jsstring) : streq a a = true.
Proof. apply streq_spec; reflexivity. Qed.

(** ** Tokenizer *)

Lemma trimStart_nil (s : jsstring) :
  trimStart s = [] -> forallb is_space s = true.
Proof.
  induction s as [|c s IH]; simpl; [reflexivity|].
  destruct (is_space c); [exact IH | discriminate].
Qed.

Lemma trimStart_forallb (s : jsstring) :
  forallb is_space (trimStart s) = true -> forallb is_space s = true.
Proof.
  induction s as [|c s IH]; simpl; [reflexivity|].
  destruct (is_space c) eqn:E; simpl; [exact IH|].
  rewrite E; discriminate.
Qed.

Lemma forallb_rev {A : Type} (p : A -> bool) (s : list A) :
  forallb p (rev s) = forallb p s.
Proof.
  induction s as [|c s IH]; simpl; [reflexivity|].
  rewrite forallb_app, IH; simpl. rewrite andb_true_r. apply andb_comm.
Qed.

Lemma trim_nil (s : jsstring) : trim s = [] -> forallb is_space s = true.
Proof.
  unfold trim; intros H.
  apply trimStart_forallb.
  rewrite <- forallb_rev.
  apply trimStart_nil.
  rewrite <- (rev_involutive (trimStart _)), H; reflexivity.
Qed.

Lemma remove_whitespace_blank (s : jsstring) :
  forallb is_space s = true -> remove_whitespace s = [].
Proof.
  unfold remove_whitespace.
  induction s as [|c s IH]; simpl; [reflexivity|].
  intros H; apply andb_true_iff in H as [Hc Hs].
  rewrite Hc; simpl; auto.
Qed.

(** C2. The input ["2 $ 3"] holds a character that no pattern consumes,
    and [tokenize] does not fail on it: the scan steps over ['$'] and the
    two numbers are returned. *)
Theorem tokenize_skips_unmatched_character :
  tokenize (str "2 $ 3")
  = Ok [mkToken Number (str "2"); mkToken Number (str "3")].
Proof. vm_compute. reflexivity. Qed.

Lemma TOKEN_REGEX_starts (c : jschar) (t : jsstring) :
  starts_token c = true -> TOKEN_REGEX (c :: t) <> None.
Proof.
  unfold starts_token, TOKEN_REGEX, match_identifier, match_number,
    match_punct, match_comma.
  intros H. cbn [span].
  destruct (is_ident_start c).
  { destruct (span is_ident_char t); discriminate. }
  destruct (is_digit c).
  { destruct (span is_digit t) as [a r].
    destruct r as [|c' r']; [discriminate|].
    destruct (N.eqb c' 46); [|discriminate].
    destruct (span is_digit r'); discriminate. }
  destruct (is_punct_char c); [discriminate|].
  destruct (N.eqb c 44); [discriminate|].
  discriminate H.
Qed.

Lemma match_all_nonempty (n : nat) :
  forall (s : jsstring) (c : jschar),
  List.length s <= n -> In c s -> starts_token c = true ->
  match_all n s <> [].
Proof.
  induction n as [|n IH]; intros s c Hn Hin Hc.
  - destruct s; [destruct Hin | simpl in Hn; lia].
  - destruct s as [|c' t]; [destruct Hin|].
    cbn [match_all].
    destruct (TOKEN_REGEX (c' :: t)) as [[lexeme rest]|] eqn:E; [discriminate|].
    destruct Hin as [<-|Hin].
    + exfalso. exact (TOKEN_REGEX_starts _ t Hc E).
    + apply (IH t c); [simpl in Hn; lia | assumption | assumption].
Qed.

Lemma starts_token_range (c : jschar) :
  starts_token c = true -> (40 <= c <= 122)%N.
Proof.
  unfold starts_token, is_ident_start, is_digit, is_punct_char,
    is_operator_char, in_range.
  rewrite !orb_true_iff, !andb_true_iff, !N.leb_le, !N.eqb_eq. lia.
Qed.

Lemma range_not_space (c : jschar) :
  (40 <= c <= 122)%N -> is_space c = false.
Proof.
  intros H. unfold is_space, in_range.
  repeat (apply orb_false_intro);
    try (apply N.eqb_neq; lia);
    apply andb_false_iff; [right|left]; apply N.leb_gt; lia.
Qed.

(** X1. As soon as one character of the input starts a token,
    [tokenize] succeeds, whatever the other characters are: characters
    that no pattern consumes are stepped over. *)
Lemma tokenize_succeeds (input : jsstring) (c : jschar) :
  In c input -> starts_token c = true ->
  exists tokens, tokenize input = Ok tokens.
Proof.
  intros Hin Hc. unfold tokenize.
  destruct input as [|c0 input']; [destruct Hin|].
  unfold string_match.
  assert (Hin' : In c (remove_whitespace (c0 :: input'))).
  { unfold remove_whitespace. apply filter_In. split; [assumption|].
    apply negb_true_iff, range_not_space, starts_token_range, Hc. }
  pose proof (@match_all_nonempty (List.length (remove_whitespace (c0 :: input')))
                (remove_whitespace (c0 :: input')) c (le_n _) Hin' Hc) as Hne.
  destruct (match_all _ _) as [|l ls]; [contradiction|]. eauto.
Qed.

Lemma tokenize_succeeds_witness :
  exists tokens, tokenize (str "$#2@") = Ok tokens.
Proof.
  refine (@tokenize_succeeds (str "$#2@") 50%N _ eq_refl).
  simpl. tauto.
Defined.

(** The same defect lets an expression with a stray character compile:
    ["2$+3"] is parsed as [2+3]. *)
Lemma parse_source_stray_character :
  parse_source (str "2$+3") = parse_source (str "2+3")
  /\ exists root, parse_source (str "2$+3") = Ok root.
Proof. split; [reflexivity | eexists; reflexivity]. Qed.




(** ** Parser *)

(** C3. In ["2*-3"] and ["2^-1"] a ['-'] follows an operator, and the
    parser raises the operator-cannot-follow-operator error for it: the
    check on consecutive operators runs before the unary-minus case. *)
Theorem parse_minus_after_operator :
  parse_source (str "2*-3") = Err (OperatorCannotFollow (str "-") (str "*"))
  /\ parse_source (str "2^-1") = Err (OperatorCannotFollow (str "-") (str "^")).
Proof. split; reflexivity. Qed.

(** In every state whose last token is an operator, every operator token,
    ['-'] included, is refused. *)
Lemma parse_step_operator_after_operator (st : ParserState) (token l : Token) :
  lastToken st = Some l -> type l = Operator -> type token = Operator ->
  parse_step st token = Err (OperatorCannotFollow (value token) (value l)).
Proof.
  intros Hl Htl Ht. unfold parse_step. rewrite Hl, Ht; simpl. rewrite Htl; simpl.
  reflexivity.
Qed.

(** C6, as stated, fails: the extra argument of ["sin(1,2)"] is not
    absorbed. The input is refused, with the invalid-structure error: no
    tree is returned for it. *)
Lemma function_call_arity_counterexample :
  parse_source (str "sin(1,2)") = Err InvalidExpressionStructure
  /\ (forall root, parse_source (str "sin(1,2)") <> Ok root).
Proof.
  split; [reflexivity|].
  intros root. vm_compute. discriminate.
Qed.

(** C6, amended. ["pow(2)"] is refused with the not-enough-arguments
    error for [pow]. ["sin(1,2)"] is refused too, with the
    invalid-structure error and not with an arity error: [sin] takes the
    last operand only and the first one stays on the output stack. The
    extra argument is absorbed only where a context is there to take it,
    a following operator as in ["sin(1,2)+"] or an enclosing call as in
    ["pow(sin(1,2))"]. *)
Theorem function_call_arity :
  parse_source (str "pow(2)") = Err (NotEnoughArguments (str "pow"))
  /\ parse_source (str "sin(1,2)") = Err InvalidExpressionStructure
  /\ (forall fn, parse_source (str "sin(1,2)") <> Err (NotEnoughArguments fn))
  /\ parse_source (str "sin(1,2)+")
     = Ok (BinaryOperation (str "+") (Constant (Fin 1))
             (FunctionCall (str "sin") [Constant (Fin 2)]))
  /\ parse_source (str "pow(sin(1,2))")
     = Ok (FunctionCall (str "pow")
             [Constant (Fin 1); FunctionCall (str "sin") [Constant (Fin 2)]]).
Proof.
  repeat split; try reflexivity.
  intros fn. vm_compute. discriminate.
Qed.

(** ** Numbers *)

Lemma num_eqb_refl (r : R) : (Fin r === Fin r)%number = true.
Proof. simpl. destruct (Req_dec_T r r); [reflexivity | contradiction]. Qed.

Lemma num_eqb_neq (r s : R) : r <> s -> (Fin r === Fin s)%number = false.
Proof. intros H. simpl. destruct (Req_dec_T r s); [contradiction | reflexivity]. Qed.

Lemma infinity_times_not_finite (positive : bool) (r : R) :
  Number_isFinite (infinity_times positive r) = false.
Proof.
  unfold infinity_times.
  destruct (Rlt_dec 0 r); [destruct positive; reflexivity|].
  destruct (Rlt_dec r 0); [destruct positive; reflexivity | reflexivity].
Qed.

Lemma mul_PInf_not_finite (x : number) :
  Number_isFinite (x * PInf)%number = false.
Proof. destruct x; simpl; auto using infinity_times_not_finite. Qed.

Lemma sub_not_finite (u v : number) :
  Number_isFinite u = false -> Number_isFinite v = false ->
  Number_isFinite (u - v)%number = false.
Proof. destruct u, v; simpl; intros; congruence. Qed.

Lemma add_not_finite (u v : number) :
  Number_isFinite u = false -> Number_isFinite v = false ->
  Number_isFinite (u + v)%number = false.
Proof. destruct u, v; simpl; intros; congruence. Qed.

Lemma sub_add_not_both_PInf (u v : number) :
  Number_isFinite u = false -> Number_isFinite v = false ->
  (u - v)%number = PInf -> (u + v)%number = PInf -> False.
Proof. destruct u, v; simpl; intros; congruence. Qed.

(** ** Complex arithmetic *)

Lemma inv_zero : ComplexOps.inv zero = infinite_sentinel.
Proof.
  unfold ComplexOps.inv, zero; cbn [re im].
  replace (Fin 0 * Fin 0 + Fin 0 * Fin 0)%number with (Fin 0)
    by (simpl; f_equal; lra).
  rewrite num_eqb_refl. reflexivity.
Qed.

Lemma div_zero_mul (a : Complex) :
  ComplexOps.div a zero = ComplexOps.mul a infinite_sentinel.
Proof. unfold ComplexOps.div. rewrite inv_zero. reflexivity. Qed.

Lemma infinity_times_pos (positive : bool) (r : R) :
  (0 < r)%R -> infinity_times positive r = signed_infinity positive.
Proof.
  intros H. unfold infinity_times.
  destruct (Rlt_dec 0 r); [reflexivity | contradiction].
Qed.

Lemma infinity_times_zero (positive : bool) : infinity_times positive 0 = NaN.
Proof.
  unfold infinity_times.
  destruct (Rlt_dec 0 0) as [H|_]; [exfalso; lra | reflexivity].
Qed.

(** C7, as stated, fails: dividing 1 by zero gives [NaN] in both
    components, not the infinite sentinel. *)
Lemma div_by_zero_counterexample :
  ComplexOps.div (real 1) zero = mkComplex NaN NaN
  /\ ComplexOps.div (real 1) zero <> infinite_sentinel.
Proof.
  assert (E : ComplexOps.div (real 1) zero = mkComplex NaN NaN).
  { rewrite div_zero_mul.
    unfold ComplexOps.mul, ComplexOps.new, infinite_sentinel, real.
    cbn [re im num_mul].
    rewrite infinity_times_zero, infinity_times_pos by lra.
    reflexivity. }
  split; [exact E | rewrite E; discriminate].
Qed.

(** C7, amended. The inverse of zero is the infinite sentinel. Dividing
    any [a] by zero raises no error and multiplies [a] by the sentinel:
    each component of the quotient is infinite or [NaN], and the quotient
    is never the sentinel itself. *)
Theorem division_by_zero (a : Complex) :
  ComplexOps.inv zero = infinite_sentinel
  /\ ComplexOps.div a zero = ComplexOps.mul a infinite_sentinel
  /\ Number_isFinite (re (ComplexOps.div a zero)) = false
  /\ Number_isFinite (im (ComplexOps.div a zero)) = false
  /\ ComplexOps.div a zero <> infinite_sentinel.
Proof.
  split; [exact inv_zero|].
  split; [apply div_zero_mul|].
  rewrite div_zero_mul.
  unfold ComplexOps.mul, ComplexOps.new, infinite_sentinel; cbn [re im].
  pose proof (mul_PInf_not_finite (re a)) as Hr.
  pose proof (mul_PInf_not_finite (im a)) as Hi.
  repeat split.
  - apply sub_not_finite; assumption.
  - apply add_not_finite; assumption.
  - intros E. injection E as E1 E2.
    exact (sub_add_not_both_PInf _ _ Hr Hi E1 E2).
Qed.

(** C8. Whatever the exponent [p], the power of the zero base is zero, in
    [Complex.pow] and in [c_pow] of the shader library. *)
Theorem pow_zero_base (p : Complex) :
  ComplexOps.pow zero p = zero /\ Glsl.c_pow zero p = zero.
Proof.
  split.
  - unfold ComplexOps.pow, zero; cbn [re im].
    rewrite num_eqb_refl. reflexivity.
  - unfold Glsl.c_pow, Glsl.length, zero; cbn [re im].
    replace (Fin 0 * Fin 0 + Fin 0 * Fin 0)%number with (Fin 0)
      by (simpl; f_equal; lra).
    unfold Math.sqrt.
    destruct (Rlt_dec 0 0) as [H|_]; [exfalso; lra|].
    rewrite sqrt_0, num_eqb_refl. reflexivity.
Qed.

(** *** Arithmetic on real values *)

Section RealValues.

Local Open Scope R_scope.

Lemma add_real (x y : R) : ComplexOps.add (real x) (real y) = real (x + y).
Proof. unfold ComplexOps.add, ComplexOps.new, real; simpl. do 2 f_equal; lra. Qed.

Lemma sub_real (x y : R) : ComplexOps.sub (real x) (real y) = real (x - y).
Proof. unfold ComplexOps.sub, ComplexOps.new, real; simpl. do 2 f_equal; lra. Qed.

Lemma mul_real (x y : R) : ComplexOps.mul (real x) (real y) = real (x * y).
Proof. unfold ComplexOps.mul, ComplexOps.new, real; simpl. f_equal; f_equal; lra. Qed.

Lemma unary_minus_real (x : R) :
  ComplexOps.mul (ComplexOps.new (- Fin 1)%number (Fin 0)) (real x) = real (- x).
Proof. unfold ComplexOps.mul, ComplexOps.new, real; simpl. f_equal; f_equal; lra. Qed.

Lemma mag_real (x : R) : ComplexOps.mag (real x) = Fin (Rabs x).
Proof.
  unfold ComplexOps.mag, real, Math.sqrt; cbn [re im num_mul num_add].
  replace (x * x + 0 * 0) with (x²) by (unfold Rsqr; lra).
  destruct (Rlt_dec x² 0) as [H|_].
  - exfalso. pose proof (Rle_0_sqr x). lra.
  - rewrite sqrt_Rsqr_abs. reflexivity.
Qed.

Lemma pow_real_pos (x y : R) :
  0 < x -> ComplexOps.pow (real x) (real y) = real (Rpower x y).
Proof.
  intros Hx. unfold ComplexOps.pow.
  rewrite mag_real. unfold real at 1 2; cbn [re im].
  rewrite num_eqb_neq by lra. cbn [andb].
  rewrite Rabs_pos_eq by lra.
  unfold ComplexOps.arg, Math.atan2, real; cbn [re im].
  destruct (Rlt_dec 0 x) as [_|n]; [|contradiction].
  unfold Math.log.
  destruct (Rlt_dec x 0) as [H|_]; [exfalso; lra|].
  destruct (Req_dec_T x 0) as [H|_]; [exfalso; lra|].
  replace (0 / x) with 0 by (unfold Rdiv; lra). rewrite atan_0.
  unfold Math.pow.
  destruct (Rlt_dec 0 x) as [_|n]; [|contradiction].
  assert (E : (if Req_dec_T y 0 then Fin 1 else Fin (Rpower x y)) = Fin (Rpower x y)).
  { destruct (Req_dec_T y 0) as [->|_]; [|reflexivity].
    rewrite Rpower_O by assumption. reflexivity. }
  rewrite E.
  unfold ComplexOps.new; simpl.
  replace (y * 0 + 0 * ln x) with 0 by lra.
  replace (- 0 * 0) with 0 by lra.
  rewrite exp_0, cos_0, sin_0.
  f_equal; f_equal; lra.
Qed.

Lemma pow_real_neg_two (x : R) :
  x < 0 -> ComplexOps.pow (real x) (real 2) = real (x * x).
Proof.
  intros Hx. unfold ComplexOps.pow.
  rewrite mag_real. unfold real at 1 2; cbn [re im].
  rewrite num_eqb_neq by lra. cbn [andb].
  rewrite Rabs_left by lra.
  unfold ComplexOps.arg, Math.atan2, real; cbn [re im].
  destruct (Rlt_dec 0 x) as [H|_]; [exfalso; lra|].
  destruct (Rlt_dec x 0) as [_|n]; [|contradiction].
  destruct (Rlt_dec 0 0) as [H|_]; [exfalso; lra|].
  unfold Math.log.
  destruct (Rlt_dec (- x) 0) as [H|_]; [exfalso; lra|].
  destruct (Req_dec_T (- x) 0) as [H|_]; [exfalso; lra|].
  replace (0 / x) with 0 by (unfold Rdiv; lra). rewrite atan_0.
  unfold Math.pow.
  destruct (Req_dec_T 2 0) as [H|_]; [exfalso; lra|].
  destruct (Rlt_dec 0 (- x)) as [_|n]; [|exfalso; lra].
  unfold ComplexOps.new; simpl.
  replace (2 * (0 + PI) + 0 * ln (- x)) with (2 * PI) by lra.
  replace (- 0 * (0 + PI)) with 0 by lra.
  rewrite exp_0, cos_2PI, sin_2PI.
  replace 2 with (INR 2) at 1 2 by (simpl; lra).
  rewrite Rpower_pow by lra.
  f_equal; f_equal; simpl; lra.
Qed.

Lemma Rpower_2_9 : Rpower 2 9 = 512.
Proof.
  replace 9 with (INR 9) by (simpl; lra).
  rewrite Rpower_pow by lra. simpl; lra.
Qed.

Lemma Rpower_3_2 : Rpower 3 2 = 9.
Proof.
  replace 2 with (INR 2) by (simpl; lra).
  rewrite Rpower_pow by lra. simpl; lra.
Qed.

End RealValues.

(** ** Evaluation of compiled expressions *)

Section Evaluation.

Local Open Scope R_scope.

(** C5. ["2+3*4"] groups as [2+(3*4)] and evaluates to 14; ["2^3^2"]
    groups as [2^(3^2)] and evaluates to 512; ["2-3-4"] groups as
    [(2-3)-4] and evaluates to -5; at every value [z] of the free
    variable. The values are exact in the arithmetic of the model, where
    finite numbers are not rounded. *)
Theorem precedence_and_associativity (z : Complex) :
  (parse_source (str "2+3*4")
   = Ok (BinaryOperation (str "+") (Constant (Fin 2))
           (BinaryOperation (str "*") (Constant (Fin 3)) (Constant (Fin 4))))
   /\ evaluate_source (str "2+3*4") z = Ok (real 14))
  /\ (parse_source (str "2^3^2")
      = Ok (BinaryOperation (str "^") (Constant (Fin 2))
              (BinaryOperation (str "^") (Constant (Fin 3)) (Constant (Fin 2))))
      /\ evaluate_source (str "2^3^2") z = Ok (real 512))
  /\ (parse_source (str "2-3-4")
      = Ok (BinaryOperation (str "-")
              (BinaryOperation (str "-") (Constant (Fin 2)) (Constant (Fin 3)))
              (Constant (Fin 4)))
      /\ evaluate_source (str "2-3-4") z = Ok (real (-5))).
Proof.
  repeat split; try reflexivity.
  - change (evaluate_source (str "2+3*4") z)
      with (Ok (ComplexOps.add (real 2) (ComplexOps.mul (real 3) (real 4)))).
    rewrite mul_real, add_real. do 2 f_equal; lra.
  - change (evaluate_source (str "2^3^2") z)
      with (Ok (ComplexOps.pow (real 2) (ComplexOps.pow (real 3) (real 2)))).
    rewrite pow_real_pos by lra. rewrite Rpower_3_2.
    rewrite pow_real_pos by lra. rewrite Rpower_2_9. reflexivity.
  - change (evaluate_source (str "2-3-4") z)
      with (Ok (ComplexOps.sub (ComplexOps.sub (real 2) (real 3)) (real 4))).
    rewrite !sub_real. do 2 f_equal; lra.
Qed.

Lemma evaluate_minus_two_squared (z : Complex) :
  evaluate_source (str "-2^2") z = Ok (real 4).
Proof.
  change (evaluate_source (str "-2^2") z)
    with (Ok (ComplexOps.pow
                (ComplexOps.mul (ComplexOps.new (- Fin 1)%number (Fin 0)) (real 2))
                (real 2))).
  rewrite unary_minus_real, pow_real_neg_two by lra.
  do 2 f_equal; lra.
Qed.

(** C4, as stated, fails: ["-2^2"] evaluates to 4, not to -4. *)
Lemma unary_minus_counterexample :
  evaluate_source (str "-2^2") zero = Ok (real 4)
  /\ evaluate_source (str "-2^2") zero <> Ok (real (-4)).
Proof.
  rewrite evaluate_minus_two_squared. split; [reflexivity|].
  intros E. injection E as E. lra.
Qed.

(** C4, amended. ["-2^2"] groups as [(-2)^2] and evaluates to 4 at every
    value [z] of the free variable: the unary-minus marker on top of the
    stack is reduced before ['^'] is pushed, so unary minus binds tighter
    than ['^']. *)
Theorem unary_minus_binds_tighter (z : Complex) :
  parse_source (str "-2^2")
  = Ok (BinaryOperation (str "^") (UnaryMinus (Constant (Fin 2))) (Constant (Fin 2)))
  /\ evaluate_source (str "-2^2") z = Ok (real 4).
Proof. split; [reflexivity | apply evaluate_minus_two_squared]. Qed.

End Evaluation.

(** ** The invariant of the parser, and what follows from it *)

Lemma get_Own_key {A : Type} (table : list (jsstring * A)) (name : jsstring) :
  is_key table name = true ->
  exists info, get table name = Own info /\ own_property table name = Some info.
Proof.
  unfold is_key, get. destruct (own_property table name) as [info|]; [|discriminate].
  intros _. exists info. split; reflexivity.
Qed.

Lemma get_truthy_regular {A : Type} (table : list (jsstring * A)) (name : jsstring) :
  truthy (get table name) = true ->
  existsb (streq name) Object_prototype = false ->
  is_key table name = true.
Proof.
  unfold get, is_key. destruct (own_property table name); [reflexivity|].
  intros H E. rewrite E in H. discriminate.
Qed.

Lemma get_not_truthy {A : Type} (table : list (jsstring * A)) (name : jsstring) :
  truthy (get table name) = false ->
  existsb (streq name) Object_prototype = false.
Proof.
  unfold get. destruct (own_property table name); [discriminate|].
  destruct (existsb (streq name) Object_prototype); [discriminate | reflexivity].
Qed.

Lemma forallb_firstn {A : Type} (p : A -> bool) (n : nat) (l : list A) :
  forallb p l = true -> forallb p (firstn n l) = true.
Proof.
  revert l; induction n as [|n IH]; intros [|x l]; simpl; auto.
  intros H; apply andb_true_iff in H as [-> H]; simpl; auto.
Qed.

Lemma forallb_skipn {A : Type} (p : A -> bool) (n : nat) (l : list A) :
  forallb p l = true -> forallb p (skipn n l) = true.
Proof.
  revert l; induction n as [|n IH]; intros [|x l]; simpl; auto.
  intros H; apply andb_true_iff in H as [_ H]; auto.
Qed.

(** Each part of the parser keeps the output stack well formed and the
    operator stack resolved. *)
Lemma applyOperator_ok (q q' : list ASTNode) (op : StackItem) :
  forallb well_formed q = true ->
  pending_ok op = true -> is_LeftParen op = false ->
  applyOperator q op = Ok q' ->
  forallb well_formed q' = true.
Proof.
  intros Hq Hop Hlp. destruct op as [t|]; unfold applyOperator.
  - unfold pending_ok in Hop. unfold is_LeftParen in Hlp.
    destruct (type t) eqn:Et; cbn [TokenType_eqb] in *; try discriminate.
    + (* Identifier *)
      destruct (get_Own_key _ _ Hop) as (info & -> & Hown).
      destruct (List.length q <? arity info) eqn:Elen; [discriminate|].
      intros [= <-]. cbn [forallb well_formed]. rewrite Hown.
      apply Nat.ltb_ge in Elen.
      rewrite length_rev, length_firstn, Nat.min_l by assumption.
      rewrite Nat.eqb_refl, forallb_rev, forallb_firstn, forallb_skipn by assumption.
      reflexivity.
    + (* Operator *)
      destruct q as [|r [|l rest]]; try discriminate.
      intros [= <-]. cbn [forallb well_formed] in *. rewrite Hop.
      apply andb_true_iff in Hq as [-> Hq].
      apply andb_true_iff in Hq as [-> Hq]. assumption.
  - destruct q as [|operand rest]; [discriminate|].
    intros [= <-]. exact Hq.
Qed.

Lemma reduce_operators_ok (op1 : jsstring) (s : list StackItem) :
  forall (q q' : list ASTNode) (s' : list StackItem),
  forallb well_formed q = true -> forallb pending_ok s = true ->
  reduce_operators op1 q s = Ok (q', s') ->
  forallb well_formed q' = true /\ forallb pending_ok s' = true.
Proof.
  induction s as [|topOp below IH]; intros q q' s' Hq Hs; cbn [reduce_operators].
  - intros [= <- <-]. auto.
  - pose proof Hs as Hs0.
    cbn [forallb] in Hs. apply andb_true_iff in Hs as [Htop Hbelow].
    destruct topOp as [t|].
    + destruct (type t) eqn:Et;
        try (unfold pending_ok in Htop; rewrite Et in Htop; discriminate);
        try (intros [= <- <-]; auto; fail).
      (* Operator *)
      destruct (pops_before op1 (value t)) as [[|]|e]; cbn [bind];
        try discriminate; try (intros [= <- <-]; auto; fail).
      destruct (applyOperator q (Tok t)) as [q1|e] eqn:Eapp; cbn [bind];
        [|discriminate].
      apply IH; [|assumption].
      apply (applyOperator_ok q (Tok t)); auto.
      unfold is_LeftParen. rewrite Et. reflexivity.
    + destruct (applyOperator q UnaryMinusMarker) as [q1|e] eqn:Eapp; cbn [bind];
        [|discriminate].
      apply IH; [|assumption].
      apply (applyOperator_ok q UnaryMinusMarker); auto.
Qed.

Lemma close_paren_ok (s : list StackItem) :
  forall (q q' : list ASTNode) (s' : list StackItem),
  forallb well_formed q = true -> forallb pending_ok s = true ->
  close_paren q s = Ok (q', s') ->
  forallb well_formed q' = true /\ forallb pending_ok s' = true.
Proof.
  induction s as [|topOp below IH]; intros q q' s' Hq Hs; cbn [close_paren];
    [discriminate|].
  cbn [forallb] in Hs. apply andb_true_iff in Hs as [Htop Hbelow].
  destruct (is_LeftParen topOp) eqn:Elp.
  - destruct below as [|top below']; [intros [= <- <-]; auto|].
    destruct (is_Identifier top) eqn:Eid; [|intros [= <- <-]; auto].
    cbn [forallb] in Hbelow. apply andb_true_iff in Hbelow as [Ht Hb'].
    destruct (applyOperator q top) as [q1|e] eqn:Eapp; cbn [bind]; [|discriminate].
    intros [= <- <-]. split; [|assumption].
    apply (applyOperator_ok q top); auto.
    destruct top as [t|]; [|reflexivity].
    unfold is_Identifier in Eid. unfold is_LeftParen.
    destruct (type t); try discriminate; reflexivity.
  - destruct (applyOperator q topOp) as [q1|e] eqn:Eapp; cbn [bind]; [|discriminate].
    apply IH; [|assumption].
    apply (applyOperator_ok q topOp); auto.
Qed.

Lemma drain_ok (s : list StackItem) :
  forall (q q' : list ASTNode),
  forallb well_formed q = true -> forallb pending_ok s = true ->
  drain q s = Ok q' ->
  forallb well_formed q' = true.
Proof.
  induction s as [|op below IH]; intros q q' Hq Hs; cbn [drain].
  - intros [= <-]. assumption.
  - cbn [forallb] in Hs. apply andb_true_iff in Hs as [Hop Hbelow].
    destruct (is_LeftParen op) eqn:Elp; [discriminate|].
    destruct (applyOperator q op) as [q1|e] eqn:Eapp; cbn [bind]; [|discriminate].
    apply IH; [|assumption].
    apply (applyOperator_ok q op); auto.
Qed.

Lemma parse_step_ok (st st' : ParserState) (token : Token) :
  regular token = true -> state_ok st ->
  parse_step st token = Ok st' -> state_ok st'.
Proof.
  intros Hreg [Hq Hs]. unfold parse_step.
  match goal with |- context [match ?c with Some _ => _ | None => _ end] =>
    destruct c; [discriminate|] end.
  unfold regular in Hreg.
  match goal with |- bind ?m _ = _ -> _ =>
    assert (Hm : forall q s, m = Ok (q, s) ->
                 forallb well_formed q = true /\ forallb pending_ok s = true) end.
  { intros q s. destruct (type token) eqn:Et.
    - (* Number *) intros [= <- <-]. cbn [forallb well_formed]. auto.
    - (* Identifier *)
      destruct (truthy (get FUNCTIONS (value token))) eqn:Ef.
      + intros [= <- <-]. split; [assumption|].
        cbn [forallb]. rewrite Hs, andb_true_r.
        unfold pending_ok. rewrite Et.
        apply get_truthy_regular; [assumption|].
        now apply negb_true_iff.
      + destruct (truthy (get CONSTANTS (value token)) || streq (value token) (str "z"))
          eqn:Ec; [|discriminate].
        intros [= <- <-]. split; [|assumption].
        cbn [forallb well_formed]. rewrite Hq, andb_true_r.
        apply orb_true_iff in Ec as [Ec| ->]; [|apply orb_true_r].
        apply orb_true_iff; left.
        apply get_truthy_regular; [assumption|].
        exact (get_not_truthy _ _ Ef).
    - (* Operator *)
      match goal with |- (if ?c then _ else _) = _ -> _ => destruct c end.
      + intros [= <- <-]. split; [assumption|].
        cbn [forallb pending_ok]. assumption.
      + destruct (reduce_operators (value token) (outputQueue st) (operatorStack st))
          as [[q1 s1]|e] eqn:Er; cbn [bind]; [|discriminate].
        intros [= <- <-].
        destruct (reduce_operators_ok _ _ _ Hq Hs Er) as [Hq1 Hs1].
        split; [assumption|].
        cbn [forallb]. rewrite Hs1, andb_true_r.
        unfold pending_ok. rewrite Et. assumption.
    - (* LeftParen *)
      intros [= <- <-]. split; [assumption|].
      cbn [forallb]. rewrite Hs, andb_true_r.
      unfold pending_ok. rewrite Et. reflexivity.
    - (* RightParen *)
      intros H. exact (close_paren_ok _ _ Hq Hs H).
    - (* Comma *)
      intros [= <- <-]. auto. }
  match goal with |- bind ?m _ = _ -> _ => destruct m as [[q s]|e] end;
    cbn [bind]; [|discriminate].
  intros [= <-]. exact (Hm q s eq_refl).
Qed.

Lemma parse_loop_ok (tokens : list Token) :
  forall st st' : ParserState,
  forallb regular tokens = true -> state_ok st ->
  parse_loop st tokens = Ok st' -> state_ok st'.
Proof.
  induction tokens as [|token tokens IH]; intros st st' Hreg Hst; cbn [parse_loop].
  - intros [= <-]. assumption.
  - cbn [forallb] in Hreg. apply andb_true_iff in Hreg as [Ht Hts].
    destruct (parse_step st token) as [st1|e] eqn:E1; cbn [bind]; [|discriminate].
    apply IH; [assumption|].
    exact (parse_step_ok _ Ht Hst E1).
Qed.

(** On regular tokens, a tree that [parseTokens] returns is well formed. *)
Theorem parseTokens_well_formed (tokens : list Token) (root : ASTNode) :
  forallb regular tokens = true ->
  parseTokens tokens = Ok root ->
  well_formed root = true.
Proof.
  intros Hreg. unfold parseTokens.
  destruct (parse_loop (mkParserState [] [] None) tokens) as [st|e] eqn:El;
    cbn [bind]; [|discriminate].
  destruct (parse_loop_ok _ Hreg (conj eq_refl eq_refl : state_ok (mkParserState [] [] None)) El)
    as [Hq Hs].
  destruct (drain (outputQueue st) (operatorStack st)) as [q|e] eqn:Ed;
    cbn [bind]; [|discriminate].
  pose proof (drain_ok _ _ Hq Hs Ed) as Hq'.
  destruct q as [|r [|]]; try discriminate.
  intros [= <-]. cbn [forallb] in Hq'. now rewrite andb_true_r in Hq'.
Qed.


Lemma is_key_get {A : Type} (table : list (jsstring * A)) (name : jsstring) :
  is_key table name = true -> exists info, get table name = Own info.
Proof. intros H. destruct (get_Own_key _ _ H) as (info & E & _). eauto. Qed.

(** The code generators succeed on every well-formed tree: no lookup of
    theirs misses. *)
Lemma generateJs_total (root : ASTNode) :
  well_formed root = true -> exists jsCode, generateJs root = Ok jsCode.
Proof.
  unfold generateJs.
  induction root as [value|name|operator l r IHl IHr|functionName args IH|operand IH]
    using ASTNode_nested_ind; cbn [well_formed generateJsNode]; intros H.
  - eauto.
  - destruct (get CONSTANTS name) as [info| |] eqn:E; eauto.
    exfalso. apply orb_true_iff in H as [H|H].
    + destruct (is_key_get _ _ H) as [info E']. congruence.
    + apply streq_spec in H. subst name. discriminate.
  - apply andb_true_iff in H as [H Hr]. apply andb_true_iff in H as [Hop Hl].
    destruct (IHl Hl) as [jl ->]. destruct (IHr Hr) as [jr ->].
    destruct (is_key_get _ _ Hop) as [info ->]. cbn [bind js_name]. eauto.
  - destruct (own_property FUNCTIONS functionName) as [info|] eqn:Eown;
      [|discriminate].
    apply andb_true_iff in H as [_ Hargs].
    assert (Hmap : exists es,
      (fix map_args (nodes : list ASTNode) : result (list JsExpr) :=
         match nodes with
         | [] => Ok []
         | n :: nodes' =>
             e <- generateJsNode n ;; es <- map_args nodes' ;; Ok (e :: es)
         end) args = Ok es).
    { induction args as [|n nodes IHn]; [eauto|].
      cbn [forallb] in Hargs. apply andb_true_iff in Hargs as [Hn Hnodes].
      inversion IH as [|? ? IHhead IHtail]; subst.
      destruct (IHhead Hn) as [e ->].
      destruct (IHn IHtail Hnodes) as [es ->]. cbn [bind]. eauto. }
    destruct Hmap as [es ->]. cbn [bind].
    unfold get. rewrite Eown. cbn [bind js_name]. eauto.
  - destruct (IH H) as [e ->]. cbn [bind]. eauto.
Qed.

Lemma generateGlsl_total (root : ASTNode) :
  well_formed root = true -> exists body, generateGlsl root = Ok body.
Proof.
  unfold generateGlsl.
  induction root as [value|name|operator l r IHl IHr|functionName args IH|operand IH]
    using ASTNode_nested_ind; cbn [well_formed generateGlslNode]; intros H.
  - eauto.
  - destruct (get CONSTANTS name) as [info| |]; eauto.
  - apply andb_true_iff in H as [H Hr]. apply andb_true_iff in H as [Hop Hl].
    destruct (IHl Hl) as [jl ->]. destruct (IHr Hr) as [jr ->].
    destruct (is_key_get _ _ Hop) as [info ->]. cbn [bind glsl_name]. eauto.
  - destruct (own_property FUNCTIONS functionName) as [info|] eqn:Eown;
      [|discriminate].
    apply andb_true_iff in H as [_ Hargs].
    assert (Hmap : exists es,
      (fix map_args (nodes : list ASTNode) : result (list GlslExpr) :=
         match nodes with
         | [] => Ok []
         | n :: nodes' =>
             e <- generateGlslNode n ;; es <- map_args nodes' ;; Ok (e :: es)
         end) args = Ok es).
    { induction args as [|n nodes IHn]; [eauto|].
      cbn [forallb] in Hargs. apply andb_true_iff in Hargs as [Hn Hnodes].
      inversion IH as [|? ? IHhead IHtail]; subst.
      destruct (IHhead Hn) as [e ->].
      destruct (IHn IHtail Hnodes) as [es ->]. cbn [bind]. eauto. }
    destruct Hmap as [es ->]. cbn [bind].
    unfold get. rewrite Eown. cbn [bind glsl_name]. eauto.
  - destruct (IH H) as [e ->]. cbn [bind]. eauto.
Qed.

(** *** The lexemes of the tokenizer *)

Lemma span_forallb (p : jschar -> bool) (s : jsstring) :
  forallb p (fst (span p s)) = true.
Proof.
  induction s as [|c s IH]; simpl; [reflexivity|].
  destruct (p c) eqn:E; [|reflexivity].
  destruct (span p s) as [a r]; simpl in *. now rewrite E.
Qed.

Lemma span_length (p : jschar -> bool) (s : jsstring) :
  List.length (snd (span p s)) <= List.length s.
Proof.
  induction s as [|c s IH]; simpl; [lia|].
  destruct (p c); [|simpl; lia].
  destruct (span p s) as [a r]; simpl in *. lia.
Qed.

Lemma ident_char_not_operator (c : jschar) :
  is_ident_char c = true -> is_operator_char c = false.
Proof.
  intros H. unfold is_operator_char.
  destruct (N.eqb_spec c 43) as [->|_]; [discriminate H|].
  destruct (N.eqb_spec c 45) as [->|_]; [discriminate H|].
  destruct (N.eqb_spec c 42) as [->|_]; [discriminate H|].
  destruct (N.eqb_spec c 47) as [->|_]; [discriminate H|].
  destruct (N.eqb_spec c 94) as [->|_]; [discriminate H|].
  reflexivity.
Qed.

Lemma digit_not_operator (c : jschar) :
  is_digit c = true -> is_operator_char c = false.
Proof.
  intros H. apply ident_char_not_operator.
  unfold is_ident_char. unfold is_digit in H. rewrite H.
  now rewrite !orb_true_r.
Qed.

Lemma forallb_no_operator (p : jschar -> bool) (l : jsstring) :
  (forall c, p c = true -> is_operator_char c = false) ->
  forallb p l = true -> existsb is_operator_char l = false.
Proof.
  intros Hp. induction l as [|c l IH]; simpl; [reflexivity|].
  intros H. apply andb_true_iff in H as [Hc Hl].
  now rewrite (Hp c Hc), IH.
Qed.

(** A lexeme is a single character, or holds no operator character; and
    the rest of the string is shorter than the string. *)
Lemma TOKEN_REGEX_lexeme (s lexeme rest : jsstring) :
  TOKEN_REGEX s = Some (lexeme, rest) ->
  ((exists c, lexeme = [c]) \/ existsb is_operator_char lexeme = false)
  /\ List.length rest < List.length s.
Proof.
  unfold TOKEN_REGEX.
  destruct (match_identifier s) as [m|] eqn:Ei.
  { intros [= ->]. unfold match_identifier in Ei.
    destruct s as [|c t]; [discriminate|].
    destruct (is_ident_start c) eqn:Ec; [|discriminate].
    pose proof (span_forallb is_ident_char t) as Ha.
    pose proof (span_length is_ident_char t) as Hl.
    destruct (span is_ident_char t) as [a r]; simpl in *.
    injection Ei as <- <-. split; [right|simpl; lia].
    apply (forallb_no_operator is_ident_char); [exact ident_char_not_operator|].
    simpl. rewrite Ha, andb_true_r.
    unfold is_ident_start in Ec. unfold is_ident_char.
    destruct (in_range 97 122 c), (in_range 65 90 c), (N.eqb c 95);
      simpl in *; try discriminate; now rewrite ?orb_true_r. }
  destruct (match_number s) as [m|] eqn:En.
  { intros [= ->]. unfold match_number in En.
    pose proof (span_forallb is_digit s) as Hd.
    pose proof (span_length is_digit s) as Hl.
    destruct (span is_digit s) as [ds r] eqn:Es; simpl in *.
    destruct ds as [|d ds']; [discriminate|].
    assert (Hlt : List.length r < List.length s).
    { destruct s as [|c t]; [discriminate|]. simpl in Es.
      destruct (is_digit c); [|discriminate].
      pose proof (span_length is_digit t) as Hl'.
      destruct (span is_digit t) as [a r']; simpl in *.
      injection Es as _ _ <-. lia. }
    destruct r as [|c r'].
    - injection En as <- <-. split; [right|assumption].
      apply (forallb_no_operator is_digit); [exact digit_not_operator|assumption].
    - destruct (N.eqb_spec c 46) as [->|_].
      + pose proof (span_forallb is_digit r') as Hf.
        pose proof (span_length is_digit r') as Hl'.
        destruct (span is_digit r') as [fs r'']; simpl in *.
        injection En as <- <-. split; [right|lia].
        change (d :: ds' ++ 46%N :: fs) with ((d :: ds') ++ 46%N :: fs).
        rewrite existsb_app.
        rewrite (forallb_no_operator is_digit (d :: ds') digit_not_operator Hd).
        simpl.
        apply (forallb_no_operator is_digit); [exact digit_not_operator|assumption].
      + injection En as <- <-. split; [right|assumption].
        apply (forallb_no_operator is_digit); [exact digit_not_operator|assumption]. }
  destruct (match_punct s) as [m|] eqn:Ep.
  { intros [= ->]. unfold match_punct in Ep.
    destruct s as [|c t]; [discriminate|].
    destruct (is_punct_char c); [|discriminate].
    injection Ep as <- <-. split; [left; eauto | simpl; lia]. }
  unfold match_comma. destruct s as [|c t]; [discriminate|].
  destruct (N.eqb c 44); [|discriminate].
  intros [= <- <-]. split; [left; eauto | simpl; lia].
Qed.

(** The fuel of the scan never runs out: any fuel not below the length of
    the string gives the same matches. *)
Lemma match_all_fuel (n : nat) :
  forall (m : nat) (s : jsstring),
  List.length s <= n -> List.length s <= m -> match_all n s = match_all m s.
Proof.
  induction n as [|n IH]; intros m s Hn Hm.
  - destruct s; [|simpl in Hn; lia]. destruct m; reflexivity.
  - destruct m as [|m].
    + destruct s; [reflexivity | simpl in Hm; lia].
    + destruct s as [|c t]; [reflexivity|].
      cbn [match_all].
      destruct (TOKEN_REGEX (c :: t)) as [[lexeme rest]|] eqn:E.
      * apply TOKEN_REGEX_lexeme in E as [_ Hlt]. simpl in *.
        f_equal. apply IH; lia.
      * simpl in *. apply IH; lia.
Qed.

Lemma match_all_lexemes (n : nat) :
  forall (s : jsstring) (lexeme : jsstring),
  In lexeme (match_all n s) ->
  (exists c, lexeme = [c]) \/ existsb is_operator_char lexeme = false.
Proof.
  induction n as [|n IH]; intros s lexeme; [intros []|].
  destruct s as [|c t]; [intros []|].
  cbn [match_all].
  destruct (TOKEN_REGEX (c :: t)) as [[l rest]|] eqn:E.
  - intros [<-|Hin]; [|eauto].
    now apply TOKEN_REGEX_lexeme in E as [H _].
  - eauto.
Qed.

Lemma classify_type_value (lexeme : jsstring) :
  value (classify lexeme) = lexeme.
Proof.
  unfold classify.
  repeat match goal with |- context [if ?c then _ else _] => destruct c end;
    reflexivity.
Qed.

Lemma classify_Operator (lexeme : jsstring) :
  type (classify lexeme) = Operator -> existsb is_operator_char lexeme = true.
Proof.
  unfold classify.
  destruct (negb (isNaN (parseFloat lexeme))); [discriminate|].
  destruct (existsb is_operator_char lexeme); [reflexivity|].
  repeat match goal with |- context [if ?c then _ else _] => destruct c end;
    discriminate.
Qed.

Lemma operator_char_is_key (c : jschar) :
  is_operator_char c = true -> is_key OPERATORS [c] = true.
Proof.
  unfold is_operator_char.
  destruct (N.eqb_spec c 43) as [->|_]; [reflexivity|].
  destruct (N.eqb_spec c 45) as [->|_]; [reflexivity|].
  destruct (N.eqb_spec c 42) as [->|_]; [reflexivity|].
  destruct (N.eqb_spec c 47) as [->|_]; [reflexivity|].
  destruct (N.eqb_spec c 94) as [->|_]; [reflexivity|].
  discriminate.
Qed.

(** Every operator token that [tokenize] returns is a key of [OPERATORS]. *)
Lemma tokenize_operators (input : jsstring) (tokens : list Token) (t : Token) :
  tokenize input = Ok tokens -> In t tokens -> type t = Operator ->
  is_key OPERATORS (value t) = true.
Proof.
  unfold tokenize. destruct input as [|c0 input']; [discriminate|].
  unfold string_match.
  destruct (match_all _ _) as [|l ls] eqn:E; [discriminate|].
  intros [= <-] Hin Ht.
  change (In t (map classify (l :: ls))) in Hin.
  apply in_map_iff in Hin as (lexeme & <- & Hin).
  apply classify_Operator in Ht.
  rewrite classify_type_value.
  rewrite <- E in Hin.
  apply match_all_lexemes in Hin as [[c ->]|Hno]; [|congruence].
  apply operator_char_is_key.
  simpl in Ht. now rewrite orb_false_r in Ht.
Qed.

Lemma tokenize_regular (input : jsstring) (tokens : list Token) :
  tokenize input = Ok tokens -> no_inherited_name tokens = true ->
  forallb regular tokens = true.
Proof.
  intros Htok Hno. apply forallb_forall. intros t Hin.
  unfold no_inherited_name in Hno. rewrite forallb_forall in Hno.
  specialize (Hno t Hin). unfold regular.
  destruct (type t) eqn:Et; try reflexivity.
  - now rewrite andb_true_l in Hno.
  - exact (tokenize_operators _ t Htok Hin Et).
Qed.

(** A source none of whose identifiers is the name of a property of
    [Object.prototype]: when it parses, its tree is well formed and both
    code generators succeed on it. *)
Theorem compile_names_resolved (source : jsstring) (tokens : list Token)
    (root : ASTNode) :
  tokenize source = Ok tokens -> no_inherited_name tokens = true ->
  parseTokens tokens = Ok root ->
  well_formed root = true
  /\ (exists jsCode, generateJs root = Ok jsCode)
  /\ (exists body, generateGlsl root = Ok body).
Proof.
  intros Htok Hno Hparse.
  pose proof (parseTokens_well_formed _ (tokenize_regular _ Htok Hno) Hparse) as Hwf.
  auto using generateJs_total, generateGlsl_total.
Qed.

(** X2. On a source none of whose identifiers is the name of a
    property of [Object.prototype], [parse] is transactional: it throws
    and leaves the facade as it was, or it returns and has replaced the
    AST and the evaluator together. *)
Theorem parse_transactional (this : Expression) (source : jsstring) :
  (forall tokens, tokenize source = Ok tokens -> no_inherited_name tokens = true) ->
  (exists e, ExpressionOps.parse this source = (this, Some e))
  \/ (exists root jsCode,
        parse_source source = Ok root /\ generateJs root = Ok jsCode
        /\ ExpressionOps.parse this source
           = (mkExpression (Some root) (NewFunction jsCode), None)).
Proof.
  intros Hno. unfold ExpressionOps.parse, parse_source.
  destruct (tokenize source) as [tokens|e] eqn:Htok; [|eauto].
  cbn [bind].
  destruct (parseTokens tokens) as [root|e] eqn:Hparse; [|eauto].
  destruct (compile_names_resolved _ Htok (Hno tokens eq_refl) Hparse)
    as (_ & [jsCode Hjs] & _).
  rewrite Hjs. right. eauto.
Qed.

(** The hypotheses of the two theorems hold of ordinary sources. *)
Example compile_names_resolved_example :
  exists root,
    parse_source (str "pow(sin(z), 2) + pi") = Ok root /\ well_formed root = true.
Proof.
  eexists. split; [reflexivity|].
  refine (proj1 (@compile_names_resolved (str "pow(sin(z), 2) + pi") _ _
                   eq_refl eq_refl eq_refl)).
Qed.

Lemma parse_transactional_witness :
  (exists e, ExpressionOps.parse default_expression (str "sin(z)^2")
             = (default_expression, Some e))
  \/ (exists root jsCode,
        parse_source (str "sin(z)^2") = Ok root /\ generateJs root = Ok jsCode
        /\ ExpressionOps.parse default_expression (str "sin(z)^2")
           = (mkExpression (Some root) (NewFunction jsCode), None)).
Proof.
  apply parse_transactional. intros tokens H.
  injection H as <-. reflexivity.
Defined.

(** ** The facade *)

Lemma new_default : ExpressionOps.new None = Ok default_expression.
Proof. reflexivity. Qed.

(** The three outcomes of [parse]. *)
Lemma parse_front_end_failure (this : Expression) (source : jsstring) (e : Error) :
  parse_source source = Err e ->
  ExpressionOps.parse this source = (this, Some e).
Proof.
  unfold parse_source, ExpressionOps.parse.
  destruct (tokenize source) as [tokens|e']; simpl.
  - destruct (parseTokens tokens); [discriminate | congruence].
  - congruence.
Qed.

Lemma parse_success (this : Expression) (source : jsstring)
    (root : ASTNode) (jsCode : JsExpr) :
  parse_source source = Ok root -> generateJs root = Ok jsCode ->
  ExpressionOps.parse this source
  = (mkExpression (Some root) (NewFunction jsCode), None).
Proof.
  unfold parse_source, ExpressionOps.parse.
  destruct (tokenize source) as [tokens|e']; simpl; [|discriminate].
  intros -> ->. reflexivity.
Qed.

Lemma parse_code_generation_failure (this : Expression) (source : jsstring)
    (root : ASTNode) (e : Error) :
  parse_source source = Ok root -> generateJs root = Err e ->
  ExpressionOps.parse this source
  = (mkExpression (Some root) (jsFunction this), Some e).
Proof.
  unfold parse_source, ExpressionOps.parse.
  destruct (tokenize source) as [tokens|e']; simpl; [|discriminate].
  intros -> ->. reflexivity.
Qed.

(** C1. A failing [parse] can replace the AST alone. On the default
    facade, [parse("toString(z)")] throws, with a [TypeError] of the code
    generator, after the AST was assigned: the AST is the new one, the
    evaluator is still the old one, and the shader source no longer
    matches the evaluator. *)
Theorem parse_partial_replacement :
  let this := default_expression in
  let after := fst (ExpressionOps.parse this (str "toString(z)")) in
  ExpressionOps.new None = Ok this
  /\ snd (ExpressionOps.parse this (str "toString(z)")) = Some TypeError
  /\ ast after = Some (FunctionCall (str "toString") [VariableNode (str "z")])
  /\ ast after <> ast this
  /\ jsFunction after = jsFunction this
  /\ ExpressionOps.getGlslCode this = Ok (GlslText (str "z"))
  /\ ExpressionOps.getGlslCode after = Ok (GlslCall None [GlslText (str "z")])
  /\ (forall z, ExpressionOps.evaluate after z = Ok z).
Proof.
  cbv zeta.
  rewrite (@parse_code_generation_failure default_expression (str "toString(z)")
             (FunctionCall (str "toString") [VariableNode (str "z")]) TypeError)
    by reflexivity.
  repeat split; try reflexivity.
  simpl. discriminate.
Qed.

(** C10. The parser takes a name inherited from [Object.prototype] for a
    function: ["toString(z)"] parses to a [FunctionCall] whose name is no
    key of [FUNCTIONS]; [generateJs] throws on it and [generateGlsl] writes
    a call of [undefined]. Such a name has no arity, and its call takes the
    whole output stack as arguments. *)
Theorem parser_accepts_inherited_name :
  parse_source (str "toString(z)")
  = Ok (FunctionCall (str "toString") [VariableNode (str "z")])
  /\ own_property FUNCTIONS (str "toString") = None
  /\ well_formed (FunctionCall (str "toString") [VariableNode (str "z")]) = false
  /\ generateJs (FunctionCall (str "toString") [VariableNode (str "z")])
     = Err TypeError
  /\ generateGlsl (FunctionCall (str "toString") [VariableNode (str "z")])
     = Ok (GlslCall None [GlslText (str "z")])
  /\ parse_source (str "valueOf(1,2,3)")
     = Ok (FunctionCall (str "valueOf")
             [Constant (Fin 1); Constant (Fin 2); Constant (Fin 3)]).
Proof. repeat split; reflexivity. Qed.

(** * Further properties *)

(** ** Further properties of the tokenizer *)

Lemma remove_whitespace_idempotent (s : jsstring) :
  remove_whitespace (remove_whitespace s) = remove_whitespace s.
Proof.
  unfold remove_whitespace. induction s as [|c s IH]; simpl; [reflexivity|].
  destruct (is_space c) eqn:E; simpl; [exact IH|].
  rewrite E; simpl. now rewrite IH.
Qed.

(** X3. Whitespace never separates tokens: an input with a character
    other than whitespace is tokenized as the same input with all its
    whitespace removed. *)
Theorem tokenize_ignores_whitespace (input : jsstring) :
  remove_whitespace input <> [] ->
  tokenize input = tokenize (remove_whitespace input).
Proof.
  intros H. unfold tokenize.
  destruct input as [|c s]; [contradiction H; reflexivity|].
  destruct (remove_whitespace (c :: s)) as [|c' s'] eqn:E; [contradiction H; reflexivity|].
  rewrite <- E, remove_whitespace_idempotent. reflexivity.
Qed.

Lemma tokenize_ignores_whitespace_witness :
  remove_whitespace (str "1 2 + si n(z)") <> []
  /\ tokenize (str "1 2 + si n(z)") = tokenize (str "12+sin(z)").
Proof.
  assert (H : remove_whitespace (str "1 2 + si n(z)") <> []) by (vm_compute; discriminate).
  split; [exact H | exact (tokenize_ignores_whitespace (str "1 2 + si n(z)") H)].
Defined.

Lemma span_all (p : jschar -> bool) (s : jsstring) :
  forallb p s = true -> span p s = (s, []).
Proof.
  induction s as [|c s IH]; simpl; [reflexivity|].
  intros H. apply andb_true_iff in H as [-> H]. now rewrite (IH H).
Qed.

Lemma ident_char_range (c : jschar) :
  is_ident_char c = true -> (40 <= c <= 122)%N.
Proof.
  unfold is_ident_char, in_range.
  rewrite !orb_true_iff, !andb_true_iff, !N.leb_le, !N.eqb_eq. lia.
Qed.

Lemma remove_whitespace_identifier (s : jsstring) :
  forallb is_ident_char s = true -> remove_whitespace s = s.
Proof.
  unfold remove_whitespace. induction s as [|c s IH]; simpl; [reflexivity|].
  intros H. apply andb_true_iff in H as [Hc Hs].
  rewrite (range_not_space (ident_char_range _ Hc)); simpl. now rewrite IH.
Qed.

(** The tokens of a string made of one identifier-shaped lexeme. *)
Lemma tokenize_identifier (c : jschar) (rest : jsstring) :
  is_ident_start c = true -> forallb is_ident_char rest = true ->
  tokenize (c :: rest) = Ok [classify (c :: rest)].
Proof.
  intros Hc Hrest.
  assert (Hc' : is_ident_char c = true).
  { unfold is_ident_start in Hc. unfold is_ident_char.
    destruct (in_range 97 122 c), (in_range 65 90 c), (N.eqb c 95);
      simpl in *; try discriminate; now rewrite ?orb_true_r. }
  unfold tokenize.
  rewrite remove_whitespace_identifier by (simpl; now rewrite Hc', Hrest).
  unfold string_match. cbn [List.length match_all].
  unfold TOKEN_REGEX, match_identifier. rewrite Hc, (span_all _ _ Hrest).
  destruct (List.length rest); reflexivity.
Qed.

Lemma ident_start_facts (c : jschar) :
  is_ident_start c = true ->
  is_space c = false /\ is_digit c = false /\ is_operator_char c = false
  /\ N.eqb c 45 = false /\ N.eqb c 43 = false /\ N.eqb c 46 = false
  /\ N.eqb c 40 = false /\ N.eqb c 41 = false /\ N.eqb c 44 = false.
Proof.
  intros H.
  assert (R : (97 <= c <= 122 \/ 65 <= c <= 90 \/ c = 95)%N).
  { unfold is_ident_start, in_range in H.
    rewrite !orb_true_iff, !andb_true_iff, !N.leb_le, !N.eqb_eq in H. tauto. }
  repeat split; try (apply N.eqb_neq; lia).
  - apply range_not_space; lia.
  - unfold is_digit, in_range. apply andb_false_iff; right. apply N.leb_gt; lia.
  - unfold is_operator_char.
    repeat (apply orb_false_intro); apply N.eqb_neq; lia.
Qed.

Lemma ident_start_is_ident_char (c : jschar) :
  is_ident_start c = true -> is_ident_char c = true.
Proof.
  unfold is_ident_start, is_ident_char.
  destruct (in_range 97 122 c), (in_range 65 90 c), (N.eqb c 95);
    simpl; try discriminate; intros _; now rewrite ?orb_true_r.
Qed.

(** [parseFloat] of an identifier-shaped string: [Infinity] when the
    string starts with it, [NaN] otherwise. *)
Lemma parseFloat_identifier (c : jschar) (rest : jsstring) :
  is_ident_start c = true ->
  parseFloat (c :: rest)
  = if starts_with (str "Infinity") (c :: rest) then PInf else NaN.
Proof.
  intros Hc.
  destruct (ident_start_facts _ Hc) as (Hs & Hd & _ & Hm & Hp & Hdot & _).
  unfold parseFloat. cbn [span]. rewrite Hs.
  unfold read_sign. rewrite Hm, Hp.
  destruct (starts_with (str "Infinity") (c :: rest)); [reflexivity|].
  cbn [span]. rewrite Hd, Hdot. reflexivity.
Qed.

(** X4. An identifier that starts with [Infinity] is a number: whatever
    identifier characters follow, the source is the constant [Infinity],
    and evaluates to it at every [z]. *)
Theorem infinity_identifier_is_number (suffix : jsstring) (z : Complex) :
  forallb is_ident_char suffix = true ->
  tokenize (str "Infinity" ++ suffix)
  = Ok [mkToken Number (str "Infinity" ++ suffix)]
  /\ parse_source (str "Infinity" ++ suffix) = Ok (Constant PInf)
  /\ evaluate_source (str "Infinity" ++ suffix) z = Ok (mkComplex PInf (Fin 0)).
Proof.
  intros H.
  assert (Htok : tokenize (str "Infinity" ++ suffix)
                 = Ok [mkToken Number (str "Infinity" ++ suffix)]).
  { change (str "Infinity" ++ suffix) with (73%N :: (str "nfinity" ++ suffix)).
    rewrite tokenize_identifier;
      [|reflexivity| rewrite forallb_app, H; reflexivity].
    unfold classify. rewrite parseFloat_identifier by reflexivity.
    reflexivity. }
  assert (Hpf : parseFloat (str "Infinity" ++ suffix) = PInf).
  { change (str "Infinity" ++ suffix) with (73%N :: (str "nfinity" ++ suffix)).
    rewrite parseFloat_identifier by reflexivity. reflexivity. }
  assert (Hparse : parse_source (str "Infinity" ++ suffix) = Ok (Constant PInf)).
  { unfold parse_source. rewrite Htok. cbn [bind].
    unfold parseTokens. cbn [parse_loop parse_step type value lastToken
      is_value_type last_type_is andb TokenType_eqb bind outputQueue
      operatorStack drain]. rewrite Hpf. reflexivity. }
  repeat split; try assumption.
  unfold evaluate_source, ExpressionOps.new, ExpressionOps.parse.
  replace (match str "Infinity" ++ suffix with
           | [] => str "z" | c :: s => c :: s end)
    with (str "Infinity" ++ suffix) by reflexivity.
  unfold parse_source in Hparse.
  destruct (tokenize (str "Infinity" ++ suffix)) as [tokens|e]; [|discriminate].
  cbn [bind] in Hparse. rewrite Hparse. reflexivity.
Qed.

Lemma infinity_identifier_is_number_witness :
  parse_source (str "Infinity_and_beyond") = Ok (Constant PInf).
Proof.
  exact (proj1 (proj2 (@infinity_identifier_is_number (str "_and_beyond") zero eq_refl))).
Defined.

(** X5. An identifier that is none of the names the parser knows is
    refused with the unknown-identifier error. *)
Theorem unknown_identifier (c : jschar) (rest : jsstring) :
  is_ident_start c = true -> forallb is_ident_char rest = true ->
  starts_with (str "Infinity") (c :: rest) = false ->
  truthy (get FUNCTIONS (c :: rest)) = false ->
  truthy (get CONSTANTS (c :: rest)) = false ->
  c :: rest <> str "z" ->
  parse_source (c :: rest) = Err (UnknownIdentifier (c :: rest)).
Proof.
  intros Hc Hrest Hinf Hf Hk Hz.
  destruct (ident_start_facts _ Hc) as (_ & _ & Hop & _ & _ & _ & Hl & Hr & Hcomma).
  assert (Hcl : classify (c :: rest) = mkToken Identifier (c :: rest)).
  { unfold classify. rewrite parseFloat_identifier, Hinf by assumption.
    cbn [isNaN negb].
    rewrite (forallb_no_operator is_ident_char (c :: rest) ident_char_not_operator)
      by (simpl; now rewrite (ident_start_is_ident_char _ Hc), Hrest).
    change (str "(") with [40%N]. change (str ")") with [41%N].
    change (str ",") with [44%N]. cbn [streq].
    rewrite Hl, Hr, Hcomma. reflexivity. }
  unfold parse_source. rewrite tokenize_identifier, Hcl by assumption.
  cbn [bind]. unfold parseTokens.
  cbn [parse_loop parse_step type value lastToken is_value_type last_type_is
       andb TokenType_eqb bind outputQueue operatorStack].
  rewrite Hf, Hk. cbn [orb].
  destruct (streq (c :: rest) (str "z")) eqn:E; [|reflexivity].
  apply streq_spec in E. contradiction.
Qed.

Lemma unknown_identifier_witness :
  parse_source (str "w") = Err (UnknownIdentifier (str "w")).
Proof.
  refine (@unknown_identifier 119%N [] eq_refl eq_refl eq_refl eq_refl eq_refl _).
  discriminate.
Defined.

(** ** Further properties of the parser *)

Lemma parse_loop_app (pre post : list Token) :
  forall st : ParserState,
  parse_loop st (pre ++ post)
  = (st' <- parse_loop st pre ;; parse_loop st' post).
Proof.
  induction pre as [|t pre IH]; intros st; cbn [app parse_loop bind]; [reflexivity|].
  destruct (parse_step st t) as [st1|e]; cbn [bind]; [apply IH | reflexivity].
Qed.

Lemma parse_step_lastToken (st st' : ParserState) (token : Token) :
  parse_step st token = Ok st' -> lastToken st' = Some token.
Proof.
  unfold parse_step.
  match goal with |- context [match ?c with Some _ => _ | None => _ end] =>
    destruct c; [discriminate|] end.
  match goal with |- bind ?m _ = _ -> _ => destruct m as [[q s]|e] end;
    cbn [bind]; [|discriminate].
  intros [= <-]. reflexivity.
Qed.

Lemma parse_step_value_after_value (st : ParserState) (token l : Token) :
  lastToken st = Some l ->
  is_value_type (type l) = true -> is_value_type (type token) = true ->
  parse_step st token = Err (UnexpectedToken (value token) (value l)).
Proof.
  intros Hl Htl Ht. unfold parse_step, last_type_is. rewrite Hl, Ht, Htl.
  reflexivity.
Qed.

Lemma parseTokens_adjacent (pre post : list Token) (l t : Token) :
  (forall st, lastToken st = Some l -> exists e, parse_step st t = Err e) ->
  exists e, parseTokens (pre ++ l :: t :: post) = Err e.
Proof.
  intros Hstep. unfold parseTokens.
  rewrite parse_loop_app.
  destruct (parse_loop (mkParserState [] [] None) pre) as [st0|e]; cbn [bind];
    [|eauto].
  cbn [parse_loop].
  destruct (parse_step st0 l) as [st1|e] eqn:E1; cbn [bind]; [|eauto].
  destruct (Hstep st1 (parse_step_lastToken _ _ E1)) as [e ->]. cbn [bind]. eauto.
Qed.

(** X6. There is no implicit multiplication: a token sequence in which
    a number or identifier directly follows a number or identifier is
    never accepted. *)
Theorem adjacent_values_rejected (pre post : list Token) (l t : Token) :
  is_value_type (type l) = true -> is_value_type (type t) = true ->
  exists e, parseTokens (pre ++ l :: t :: post) = Err e.
Proof.
  intros Hl Ht. apply parseTokens_adjacent. intros st Hst.
  rewrite (parse_step_value_after_value _ _ Hst Hl Ht). eauto.
Qed.

Lemma adjacent_values_rejected_witness :
  exists e, parseTokens [mkToken Number (str "2"); mkToken Identifier (str "z")]
            = Err e.
Proof.
  exact (@adjacent_values_rejected [] [] (mkToken Number (str "2"))
           (mkToken Identifier (str "z")) eq_refl eq_refl).
Defined.

(** X7. A token sequence in which an operator directly follows an
    operator is never accepted, a ['-'] after an operator included. *)
Theorem adjacent_operators_rejected (pre post : list Token) (l t : Token) :
  type l = Operator -> type t = Operator ->
  exists e, parseTokens (pre ++ l :: t :: post) = Err e.
Proof.
  intros Hl Ht. apply parseTokens_adjacent. intros st Hst.
  exists (OperatorCannotFollow (value t) (value l)).
  unfold parse_step, last_type_is. rewrite Hst, Ht, Hl. reflexivity.
Qed.

Lemma adjacent_operators_rejected_witness :
  exists e,
    parseTokens [mkToken Number (str "2"); mkToken Operator (str "*");
                 mkToken Operator (str "-"); mkToken Number (str "3")]
    = Err e.
Proof.
  exact (@adjacent_operators_rejected [mkToken Number (str "2")]
           [mkToken Number (str "3")] (mkToken Operator (str "*"))
           (mkToken Operator (str "-")) eq_refl eq_refl).
Defined.



Lemma no_TypeError_bind {A B : Type} (P : A -> Prop) (Q : B -> Prop)
    (r : result A) (k : A -> result B) :
  no_TypeError P r -> (forall a, P a -> no_TypeError Q (k a)) ->
  no_TypeError Q (bind r k).
Proof. destruct r as [a|e]; cbn [bind no_TypeError]; auto. Qed.

Lemma applyOperator_no_TypeError (q : list ASTNode) (op : StackItem) :
  pending_known op = true ->
  no_TypeError (fun _ => True) (applyOperator q op).
Proof.
  intros H. destruct op as [t|]; unfold applyOperator.
  - unfold pending_known in H.
    destruct (type t); cbn [TokenType_eqb]; try discriminate H.
    + destruct (get FUNCTIONS (value t)) as [info| |]; [|exact I|discriminate H].
      destruct (List.length q <? arity info); cbn; [discriminate | exact I].
    + destruct q as [|r [|l rest]]; cbn; try discriminate; exact I.
    + destruct q as [|r [|l rest]]; cbn; try discriminate; exact I.
  - destruct q; cbn; [discriminate | exact I].
Qed.

Lemma pops_before_keys (op1 op2 : jsstring) :
  is_key OPERATORS op1 = true -> is_key OPERATORS op2 = true ->
  exists b, pops_before op1 op2 = Ok b.
Proof.
  intros H1 H2. unfold pops_before.
  destruct (is_key_get _ _ H1) as [i1 ->]. destruct (is_key_get _ _ H2) as [i2 ->].
  destruct (associativity i1); eauto.
Qed.

Lemma reduce_operators_no_TypeError (op1 : jsstring) (s : list StackItem) :
  forall q : list ASTNode,
  is_key OPERATORS op1 = true -> forallb pending_known s = true ->
  no_TypeError (fun qs => forallb pending_known (snd qs) = true)
    (reduce_operators op1 q s).
Proof.
  induction s as [|topOp below IH]; intros q H1 Hs; cbn [reduce_operators].
  - reflexivity.
  - pose proof Hs as Hs0.
    cbn [forallb] in Hs. apply andb_true_iff in Hs as [Htop Hbelow].
    pose proof (applyOperator_no_TypeError q _ Htop) as Happ.
    destruct topOp as [t|].
    + destruct (type t) eqn:Et;
        try (unfold pending_known in Htop; rewrite Et in Htop; discriminate);
        try exact Hs0.
      unfold pending_known in Htop. rewrite Et in Htop.
      destruct (pops_before_keys _ _ H1 Htop) as [b ->]. cbn [bind].
      destruct b; [|exact Hs0].
      eapply no_TypeError_bind; [exact Happ|]. intros q1 _. now apply IH.
    + eapply no_TypeError_bind; [exact Happ|]. intros q1 _. now apply IH.
Qed.

Lemma close_paren_no_TypeError (s : list StackItem) :
  forall q : list ASTNode,
  forallb pending_known s = true ->
  no_TypeError (fun qs => forallb pending_known (snd qs) = true)
    (close_paren q s).
Proof.
  induction s as [|topOp below IH]; intros q Hs; cbn [close_paren];
    [discriminate|].
  cbn [forallb] in Hs. apply andb_true_iff in Hs as [Htop Hbelow].
  destruct (is_LeftParen topOp).
  - destruct below as [|top below']; [reflexivity|].
    destruct (is_Identifier top); [|exact Hbelow].
    cbn [forallb] in Hbelow. apply andb_true_iff in Hbelow as [Ht Hb'].
    eapply no_TypeError_bind; [exact (applyOperator_no_TypeError q _ Ht)|].
    intros q1 _. exact Hb'.
  - eapply no_TypeError_bind; [exact (applyOperator_no_TypeError q _ Htop)|].
    intros q1 _. now apply IH.
Qed.

Lemma drain_no_TypeError (s : list StackItem) :
  forall q : list ASTNode,
  forallb pending_known s = true ->
  no_TypeError (fun _ => True) (drain q s).
Proof.
  induction s as [|op below IH]; intros q Hs; cbn [drain]; [exact I|].
  cbn [forallb] in Hs. apply andb_true_iff in Hs as [Hop Hbelow].
  destruct (is_LeftParen op); [discriminate|].
  eapply no_TypeError_bind; [exact (applyOperator_no_TypeError q _ Hop)|].
  intros q1 _. now apply IH.
Qed.

Lemma parse_step_no_TypeError (st : ParserState) (token : Token) :
  lexical token = true -> forallb pending_known (operatorStack st) = true ->
  no_TypeError (fun st' => forallb pending_known (operatorStack st') = true)
    (parse_step st token).
Proof.
  intros Hlex Hs. unfold parse_step.
  match goal with |- context [match ?c with Some _ => _ | None => _ end] =>
    destruct c as [e|] eqn:Ev end.
  { repeat match type of Ev with
           | (if ?c then _ else _) = _ => destruct c
           | match ?c with Some _ => _ | None => _ end = _ => destruct c
           end; try discriminate; injection Ev as <-; discriminate. }
  eapply no_TypeError_bind with
    (P := fun qs => forallb pending_known (snd qs) = true).
  2:{ intros [q s] H. exact H. }
  unfold lexical in Hlex.
  destruct (type token) eqn:Et.
  - exact Hs.
  - destruct (truthy (get FUNCTIONS (value token))) eqn:Ef.
    + cbn [no_TypeError snd forallb]. rewrite Hs, andb_true_r.
      unfold pending_known. now rewrite Et.
    + match goal with |- no_TypeError _ (if ?c then _ else _) => destruct c end;
        [exact Hs | discriminate].
  - match goal with |- no_TypeError _ (if ?c then _ else _) => destruct c end.
    + exact Hs.
    + eapply no_TypeError_bind;
        [exact (reduce_operators_no_TypeError _ _ (outputQueue st) Hlex Hs)|].
      intros [q s] H. cbn [no_TypeError snd forallb] in *. rewrite H, andb_true_r.
      unfold pending_known. now rewrite Et.
  - cbn [no_TypeError snd forallb]. rewrite Hs, andb_true_r.
    unfold pending_known. now rewrite Et.
  - now apply close_paren_no_TypeError.
  - exact Hs.
Qed.

Lemma parseTokens_no_TypeError (tokens : list Token) :
  forallb lexical tokens = true -> parseTokens tokens <> Err TypeError.
Proof.
  intros Hlex.
  assert (Hloop : forall st, forallb pending_known (operatorStack st) = true ->
            no_TypeError (fun st' => forallb pending_known (operatorStack st') = true)
              (parse_loop st tokens)).
  { induction tokens as [|t ts IH]; intros st Hs; cbn [parse_loop]; [exact Hs|].
    cbn [forallb] in Hlex. apply andb_true_iff in Hlex as [Ht Hts].
    eapply no_TypeError_bind; [exact (parse_step_no_TypeError _ _ Ht Hs)|].
    intros st1 H1. now apply IH. }
  assert (H : no_TypeError (fun _ => True) (parseTokens tokens)).
  { unfold parseTokens.
    eapply no_TypeError_bind; [exact (Hloop (mkParserState [] [] None) eq_refl)|].
    intros st Hs.
    eapply no_TypeError_bind; [exact (drain_no_TypeError _ (outputQueue st) Hs)|].
    intros q _. destruct q as [|r [|]]; cbn; try discriminate; exact I. }
  intros E. rewrite E in H. now apply H.
Qed.

Lemma tokenize_lexical (input : jsstring) (tokens : list Token) :
  tokenize input = Ok tokens -> forallb lexical tokens = true.
Proof.
  intros Htok. apply forallb_forall. intros t Hin. unfold lexical.
  destruct (type t) eqn:Et; try reflexivity.
  exact (tokenize_operators _ t Htok Hin Et).
Qed.

(** X9. Tokenizing and parsing a source text never raises a host
    [TypeError]: every failure is one of the errors that the tokenizer and
    the parser throw themselves. *)
Theorem parse_source_no_TypeError (source : jsstring) :
  parse_source source <> Err TypeError.
Proof.
  unfold parse_source.
  destruct (tokenize source) as [tokens|e] eqn:Htok; cbn [bind].
  - exact (parseTokens_no_TypeError _ (tokenize_lexical _ Htok)).
  - unfold tokenize in Htok. destruct source; [injection Htok as <-; discriminate|].
    destruct (string_match _); [discriminate|].
    injection Htok as <-. discriminate.
Qed.

(** ** Evaluation of generated code *)

Lemma call_static_operator (op : jsstring) (info : OperatorInfo) (a b : Complex) :
  own_property OPERATORS op = Some info ->
  exists v, call_static (op_js info) [a; b] = Ok v.
Proof.
  unfold OPERATORS, own_property.
  repeat (match goal with |- (if ?c then _ else _) = _ -> _ => destruct c end;
          [intros [= <-]; eexists; reflexivity|]).
  discriminate.
Qed.

Lemma call_static_function (fn : jsstring) (info : FunctionInfo) (vs : list Complex) :
  own_property FUNCTIONS fn = Some info -> List.length vs = arity info ->
  exists v, call_static (fn_js info) vs = Ok v.
Proof.
  unfold FUNCTIONS, own_property.
  repeat (match goal with |- (if ?c then _ else _) = _ -> _ => destruct c end;
          [intros [= <-]; cbn [arity fn_js];
           destruct vs as [|a [|b [|c vs]]]; try discriminate;
           intros _; eexists; reflexivity|]).
  discriminate.
Qed.

(** The code generated from a well-formed tree runs without error. *)
Lemma run_generated (z : Complex) (root : ASTNode) :
  forall jsCode, generateJs root = Ok jsCode -> well_formed root = true ->
  exists v, run jsCode z = Ok v.
Proof.
  unfold generateJs.
  induction root as [value|name|operator l r IHl IHr|functionName args IH|operand IH]
    using ASTNode_nested_ind; cbn [well_formed generateJsNode]; intros jsCode.
  - intros [= <-] _. eexists; reflexivity.
  - destruct (get CONSTANTS name) as [info| |]; try discriminate;
      intros [= <-] _; eexists; reflexivity.
  - destruct (generateJsNode l) as [jl|e]; cbn [bind]; [|discriminate].
    destruct (generateJsNode r) as [jr|e]; cbn [bind]; [|discriminate].
    intros Hgen H.
    apply andb_true_iff in H as [H Hr]. apply andb_true_iff in H as [Hop Hl].
    destruct (get_Own_key _ _ Hop) as (info & Eget & Eown).
    rewrite Eget in Hgen. cbn [bind js_name] in Hgen. injection Hgen as <-.
    destruct (IHl jl eq_refl Hl) as [vl El]. destruct (IHr jr eq_refl Hr) as [vr Er].
    cbn [run]. rewrite El, Er. cbn [bind].
    exact (call_static_operator _ vl vr Eown).
  - intros Hgen H.
    destruct (own_property FUNCTIONS functionName) as [info|] eqn:Eown;
      [|discriminate].
    apply andb_true_iff in H as [Hlen Hargs]. apply Nat.eqb_eq in Hlen.
    assert (Hmap : forall es,
      (fix map_args (nodes : list ASTNode) : result (list JsExpr) :=
         match nodes with
         | [] => Ok []
         | n :: nodes' =>
             e <- generateJsNode n ;; es <- map_args nodes' ;; Ok (e :: es)
         end) args = Ok es ->
      exists vs,
        (fix run_args (es : list JsExpr) : result (list Complex) :=
           match es with
           | [] => Ok []
           | e' :: es' => v <- run e' z ;; vs <- run_args es' ;; Ok (v :: vs)
           end) es = Ok vs
        /\ List.length vs = List.length args).
    { clear Hgen Hlen. induction args as [|n nodes IHn]; intros es.
      - intros [= <-]. exists []. split; reflexivity.
      - cbn [forallb] in Hargs. apply andb_true_iff in Hargs as [Hn Hnodes].
        inversion IH as [|? ? IHhead IHtail]; subst.
        destruct (generateJsNode n) as [e|err]; cbn [bind]; [|discriminate].
        match goal with |- bind ?m _ = _ -> _ => destruct m as [es'|err] eqn:Em end;
          cbn [bind]; [|discriminate].
        intros [= <-].
        destruct (IHhead e eq_refl Hn) as [v Ev].
        destruct (IHn IHtail Hnodes es' eq_refl) as (vs & Evs & Hl).
        exists (v :: vs). rewrite Ev. cbn [bind]. rewrite Evs. cbn [bind List.length].
        split; [reflexivity | now rewrite Hl]. }
    match type of Hgen with bind ?m _ = _ => destruct m as [es|err] eqn:Em end;
      cbn [bind] in Hgen; [|discriminate].
    unfold get in Hgen. rewrite Eown in Hgen. cbn [bind js_name] in Hgen.
    injection Hgen as <-.
    destruct (Hmap es eq_refl) as (vs & Evs & Hl).
    cbn [run]. rewrite Evs. cbn [bind].
    apply (call_static_function _ _ Eown). congruence.
  - destruct (generateJsNode operand) as [e|err]; cbn [bind]; [|discriminate].
    intros [= <-] H. destruct (IH e eq_refl H) as [v Ev].
    cbn [run]. rewrite Ev. cbn [bind]. eexists; reflexivity.
Qed.

(** X10. A source none of whose identifiers is the name of a property of
    [Object.prototype]: when it parses, every name of its tree is resolved
    by the tables, both code generators succeed on it, and the generated
    evaluator returns a value at every [z]. *)
Theorem regular_source_compiles (source : jsstring) (tokens : list Token)
    (root : ASTNode) :
  tokenize source = Ok tokens -> no_inherited_name tokens = true ->
  parseTokens tokens = Ok root ->
  well_formed root = true
  /\ (exists body, generateGlsl root = Ok body)
  /\ (exists jsCode, generateJs root = Ok jsCode
                     /\ forall z, exists v, run jsCode z = Ok v).
Proof.
  intros Htok Hno Hparse.
  destruct (compile_names_resolved _ Htok Hno Hparse) as (Hwf & [js Hjs] & Hglsl).
  repeat split; try assumption.
  exists js. split; [assumption|].
  intros z. exact (run_generated z root Hjs Hwf).
Qed.

Lemma regular_source_compiles_witness :
  well_formed (FunctionCall (str "pow")
                 [FunctionCall (str "sin") [VariableNode (str "z")];
                  Constant (Fin 2)]) = true.
Proof.
  exact (proj1 (@regular_source_compiles (str "pow(sin(z), 2)") _ _
                  eq_refl eq_refl eq_refl)).
Defined.

(** ** Further properties of the complex arithmetic *)

Lemma num_add_comm (x y : number) : (x + y)%number = (y + x)%number.
Proof. destruct x, y; simpl; try reflexivity. f_equal. apply Rplus_comm. Qed.

Lemma num_mul_comm (x y : number) : (x * y)%number = (y * x)%number.
Proof. destruct x, y; simpl; try reflexivity. f_equal. apply Rmult_comm. Qed.

(** X11. Addition and multiplication of complex numbers are commutative,
    for all values, infinite and [NaN] components included. *)
Theorem add_mul_commutative (a b : Complex) :
  ComplexOps.add a b = ComplexOps.add b a
  /\ ComplexOps.mul a b = ComplexOps.mul b a.
Proof.
  unfold ComplexOps.add, ComplexOps.mul, ComplexOps.new. split.
  - now rewrite (num_add_comm (re a)), (num_add_comm (im a)).
  - rewrite (num_mul_comm (re a) (re b)), (num_mul_comm (im a) (im b)).
    rewrite (num_mul_comm (re a) (im b)), (num_mul_comm (im a) (re b)).
    now rewrite (num_add_comm (im b * re a)%number).
Qed.

Section Polar.

Local Open Scope R_scope.

Lemma sum_squares_zero (x y : R) : x * x + y * y = 0 -> x = 0 /\ y = 0.
Proof.
  intros H. pose proof (Rle_0_sqr x) as Hx. pose proof (Rle_0_sqr y) as Hy.
  unfold Rsqr in *.
  split; apply Rsqr_0_uniq; unfold Rsqr; lra.
Qed.

Lemma sum_squares_pos (x y : R) : x <> 0 \/ y <> 0 -> 0 < x * x + y * y.
Proof.
  intros H. pose proof (Rle_0_sqr x) as Hx. pose proof (Rle_0_sqr y) as Hy.
  unfold Rsqr in *.
  destruct (Req_dec (x * x + y * y) 0) as [E|E]; [|lra].
  apply sum_squares_zero in E. lra.
Qed.



(** The polar form behind [mag] and [arg]: the argument of a finite
    number is a finite angle [t] in (-PI, PI], and the number is its
    modulus times [(cos t, sin t)]. *)
Lemma polar (x y : R) :
  exists t, Math.atan2 (Fin y) (Fin x) = Fin t
            /\ sqrt (x * x + y * y) * cos t = x
            /\ sqrt (x * x + y * y) * sin t = y
            /\ - PI < t <= PI.
Proof.
  pose proof PI_RGT_0 as HPI.
  unfold Math.atan2.
  destruct (Rlt_dec 0 x) as [Hx|Hx].
  - (* right half plane *)
    exists (atan (y / x)). split; [reflexivity|].
    set (s := 1 + (y / x)²).
    assert (Hs : 0 < s) by (unfold s; pose proof (Rle_0_sqr (y / x)); lra).
    assert (Hr : sqrt (x * x + y * y) = x * sqrt s).
    { replace (x * x + y * y) with ((x * x) * s)
        by (unfold s, Rsqr; field; lra).
      rewrite sqrt_mult by nra. rewrite sqrt_square by lra. reflexivity. }
    assert (Hss : sqrt s <> 0).
    { pose proof (sqrt_lt_R0 s Hs). lra. }
    rewrite Hr, cos_atan, sin_atan. fold s.
    pose proof (atan_bound (y / x)).
    repeat split; try (field; lra); lra.
  - destruct (Rlt_dec x 0) as [Hx'|Hx'].
    + (* left half plane *)
      set (s := 1 + (y / x)²).
      assert (Hs : 0 < s) by (unfold s; pose proof (Rle_0_sqr (y / x)); lra).
      assert (Hr : sqrt (x * x + y * y) = (- x) * sqrt s).
      { replace (x * x + y * y) with (((- x) * (- x)) * s)
          by (unfold s, Rsqr; field; lra).
        rewrite sqrt_mult by nra. rewrite sqrt_square by lra. reflexivity. }
      assert (Hss : sqrt s <> 0).
      { pose proof (sqrt_lt_R0 s Hs). lra. }
      pose proof (atan_bound (y / x)) as Hb.
      destruct (Rlt_dec y 0) as [Hy|Hy].
      * exists (atan (y / x) - PI). split; [reflexivity|].
        rewrite Hr, cos_minus, sin_minus, cos_PI, sin_PI, cos_atan, sin_atan.
        fold s.
        assert (0 < y / x).
        { unfold Rdiv. replace (y * / x) with ((- y) * / (- x)) by (field; lra).
          apply Rmult_lt_0_compat; [lra|]. apply Rinv_0_lt_compat; lra. }
        assert (0 < atan (y / x)).
        { rewrite <- atan_0. apply atan_increasing. assumption. }
        repeat split; try (field; lra); lra.
      * exists (atan (y / x) + PI). split; [reflexivity|].
        rewrite Hr, neg_cos, neg_sin, cos_atan, sin_atan. fold s.
        assert (y / x <= 0).
        { unfold Rdiv. replace (y * / x) with (- (y * / (- x))) by (field; lra).
          assert (0 <= y * / (- x)); [|lra].
          apply Rmult_le_pos; [lra|]. left. apply Rinv_0_lt_compat; lra. }
        assert (atan (y / x) <= 0).
        { destruct (Req_dec (y / x) 0) as [E|E]; [rewrite E, atan_0; lra|].
          left. rewrite <- atan_0. apply atan_increasing. lra. }
        repeat split; try (field; lra); lra.
    + (* the imaginary axis *)
      assert (x = 0) by lra. subst x.
      replace (0 * 0 + y * y) with (y * y) by lra.
      destruct (Rlt_dec 0 y) as [Hy|Hy].
      * exists (PI / 2). split; [reflexivity|].
        rewrite sqrt_square, cos_PI2, sin_PI2 by lra.
        repeat split; lra.
      * destruct (Rlt_dec y 0) as [Hy'|Hy'].
        -- exists (- PI / 2). split; [reflexivity|].
           replace (y * y) with ((- y) * (- y)) by lra.
           rewrite sqrt_square by lra.
           replace (- PI / 2) with (- (PI / 2)) by lra.
           rewrite cos_neg, sin_neg, cos_PI2, sin_PI2.
           repeat split; lra.
        -- assert (y = 0) by lra. subst y.
           exists 0. split; [reflexivity|].
           replace (0 * 0) with 0 by lra.
           rewrite sqrt_0, cos_0, sin_0. repeat split; lra.
Qed.


Lemma mag_finite (x y : R) :
  ComplexOps.mag (mkComplex (Fin x) (Fin y)) = Fin (sqrt (x * x + y * y)).
Proof.
  unfold ComplexOps.mag, Math.sqrt. cbn [re im num_mul num_add].
  destruct (Rlt_dec (x * x + y * y) 0) as [H|_]; [|reflexivity].
  pose proof (Rle_0_sqr x). pose proof (Rle_0_sqr y). unfold Rsqr in *. lra.
Qed.





Lemma pow_zero (p : Complex) : ComplexOps.pow zero p = zero.
Proof.
  unfold ComplexOps.pow, zero; cbn [re im]. now rewrite num_eqb_refl.
Qed.

Lemma pow_finite (x y p : R) (t : R) :
  x <> 0 \/ y <> 0 -> p <> 0 ->
  Math.atan2 (Fin y) (Fin x) = Fin t ->
  ComplexOps.pow (mkComplex (Fin x) (Fin y)) (real p)
  = mkComplex (Fin (Rpower (sqrt (x * x + y * y)) p * cos (p * t)))
              (Fin (Rpower (sqrt (x * x + y * y)) p * sin (p * t))).
Proof.
  intros Hz Hp Et.
  pose proof (sum_squares_pos Hz) as Hd.
  pose proof (sqrt_lt_R0 _ Hd) as Hr.
  unfold ComplexOps.pow. rewrite mag_finite. unfold ComplexOps.arg, real.
  cbn [re im]. rewrite Et.
  assert (E0 : ((Fin x === Fin 0)%number && (Fin y === Fin 0)%number) = false).
  { destruct Hz as [H|H]; rewrite (num_eqb_neq H); [reflexivity|].
    apply andb_false_r. }
  rewrite E0.
  unfold Math.log.
  destruct (Rlt_dec (sqrt (x * x + y * y)) 0) as [H|_]; [lra|].
  destruct (Req_dec_T (sqrt (x * x + y * y)) 0) as [H|_]; [lra|].
  unfold Math.pow.
  destruct (Req_dec_T p 0) as [H|_]; [contradiction|].
  destruct (Rlt_dec 0 (sqrt (x * x + y * y))) as [_|H]; [|contradiction].
  unfold ComplexOps.new.
  cbn [num_neg num_mul num_add Math.exp Math.cos Math.sin].
  replace (- 0 * t) with 0 by lra. rewrite exp_0.
  replace (p * t + 0 * ln (sqrt (x * x + y * y))) with (p * t) by lra.
  f_equal; f_equal; lra.
Qed.





End Polar.

(** ** The view of a plot *)

Section View.

Local Open Scope R_scope.


Lemma num_div_finite (a b : R) : b <> 0 -> (Fin a / Fin b)%number = Fin (a / b).
Proof.
  intros H. cbn [num_div]. destruct (Req_dec_T b 0); [contradiction | reflexivity].
Qed.






(** X22. The pointer reads the corners of the domain at the corners of
    the canvas, the vertical axis being turned over: the top left pixel is
    [(xmin, ymax)] and the bottom right one is [(xmax, ymin)]. *)
Theorem pointer_corners (n : jsstring) (a b c d l t w h W H dy : R) :
  W <> 0 -> H <> 0 ->
  let canvas := mkCanvas (Fin l) (Fin t) (Fin w) (Fin h) (Fin W) (Fin H) in
  let domain := finite_domain n a b c d in
  UIManagerOps.pointer canvas domain (mkMouseEvent (Fin l) (Fin t) (Fin dy))
  = mkComplex (Fin a) (Fin d)
  /\ UIManagerOps.pointer canvas domain
       (mkMouseEvent (Fin (l + W)) (Fin (t + H)) (Fin dy))
     = mkComplex (Fin b) (Fin c).
Proof.
  intros HW HH canvas domain.
  unfold UIManagerOps.pointer, ComplexOps.new, canvas, domain, finite_domain.
  cbn [clientX clientY clientWidth clientHeight rect_left rect_top
       xmin xmax ymin ymax num_sub].
  rewrite !num_div_finite by assumption. cbn [num_sub num_mul num_add].
  split; f_equal; f_equal; field; assumption.
Qed.

Lemma pointer_corners_witness :
  UIManagerOps.pointer
    (mkCanvas (Fin 10) (Fin 20) (Fin 400) (Fin 400) (Fin 400) (Fin 400))
    (finite_domain (str "Finite Domain") (-2) 2 (-2) 2)
    (mkMouseEvent (Fin 10) (Fin 20) (Fin 0))
  = mkComplex (Fin (-2)) (Fin 2).
Proof.
  refine (proj1 (@pointer_corners (str "Finite Domain") (-2) 2 (-2) 2
                   10 20 400 400 400 400 0 _ _)); lra.
Defined.

End View.

(** X23. The info panel shows the function at the point it displays: on
    both plots, the value shown is the current expression evaluated at the
    displayed [z] (the inverse of the pointer's point on the plot of the
    neighbourhood of infinity). *)
Theorem info_panel_consistent (expression : Expression) (canvas : Canvas)
    (domain : Domain) (e : MouseEvent) (panel : UIManagerOps.InfoPanel) :
  UIManagerOps.updateInfoPanel canvas domain
    (AppOps.getFunctionValueAt expression) e = Ok panel ->
  ExpressionOps.evaluate expression (UIManagerOps.infoZ panel)
  = Ok (UIManagerOps.infoFz panel).
Proof.
  unfold UIManagerOps.updateInfoPanel, AppOps.getFunctionValueAt.
  destruct (streq (domain_name domain) (str "Infinity Neighborhood"));
    match goal with |- bind ?m _ = _ -> _ => destruct m as [fz|err] eqn:E end;
    cbn [bind]; try discriminate; intros [= <-]; exact E.
Qed.

Lemma info_panel_consistent_witness :
  let canvas := mkCanvas (Fin 0) (Fin 0) (Fin 400) (Fin 400) (Fin 400) (Fin 400) in
  let domain := mkDomain (str "Infinity Neighborhood")
                  (Fin (-1 / 8)) (Fin (1 / 8)) (Fin (-1 / 8)) (Fin (1 / 8)) in
  let e := mkMouseEvent (Fin 100) (Fin 100) (Fin 0) in
  exists panel,
    UIManagerOps.updateInfoPanel canvas domain
      (AppOps.getFunctionValueAt default_expression) e = Ok panel
    /\ ExpressionOps.evaluate default_expression (UIManagerOps.infoZ panel)
       = Ok (UIManagerOps.infoFz panel).
Proof.
  intros canvas domain e.
  eassert (H : UIManagerOps.updateInfoPanel canvas domain
                 (AppOps.getFunctionValueAt default_expression) e = Ok _)
    by reflexivity.
  exact (ex_intro _ _ (conj H (info_panel_consistent _ _ _ _ H))).
Defined.

(** ** The update loop and the facade *)

Lemma generateJs_generateGlsl (root : ASTNode) :
  forall jsCode, generateJs root = Ok jsCode ->
  exists body, generateGlsl root = Ok body.
Proof.
  unfold generateJs, generateGlsl.
  induction root as [value|name|operator l r IHl IHr|functionName args IH|operand IH]
    using ASTNode_nested_ind; cbn [generateJsNode generateGlslNode]; intros jsCode.
  - eauto.
  - destruct (get CONSTANTS name) as [info| |]; eauto.
  - destruct (generateJsNode l) as [jl|e]; cbn [bind]; [|discriminate].
    destruct (generateJsNode r) as [jr|e]; cbn [bind]; [|discriminate].
    destruct (IHl jl eq_refl) as [gl ->]. destruct (IHr jr eq_refl) as [gr ->].
    destruct (get OPERATORS operator) as [info| |]; cbn [bind js_name glsl_name];
      try discriminate. eauto.
  - intros Hgen.
    assert (Hmap : forall es,
      (fix map_args (nodes : list ASTNode) : result (list JsExpr) :=
         match nodes with
         | [] => Ok []
         | n :: nodes' =>
             e <- generateJsNode n ;; es <- map_args nodes' ;; Ok (e :: es)
         end) args = Ok es ->
      exists gs,
        (fix map_args (nodes : list ASTNode) : result (list GlslExpr) :=
           match nodes with
           | [] => Ok []
           | n :: nodes' =>
               e <- generateGlslNode n ;; es <- map_args nodes' ;; Ok (e :: es)
           end) args = Ok gs).
    { clear Hgen. induction args as [|n nodes IHn]; intros es; [eauto|].
      inversion IH as [|? ? IHhead IHtail]; subst.
      destruct (generateJsNode n) as [e|err]; cbn [bind]; [|discriminate].
      match goal with |- bind ?m _ = _ -> _ => destruct m as [es'|err] eqn:Em end;
        cbn [bind]; [|discriminate].
      intros _. destruct (IHhead e eq_refl) as [g ->].
      destruct (IHn IHtail es' eq_refl) as [gs ->]. cbn [bind]. eauto. }
    match type of Hgen with bind ?m _ = _ => destruct m as [es|err] eqn:Em end;
      cbn [bind] in Hgen; [|discriminate].
    destruct (Hmap es eq_refl) as [gs ->]. cbn [bind].
    destruct (get FUNCTIONS functionName) as [info| |];
      cbn [bind js_name glsl_name] in *; try discriminate. eauto.
  - destruct (generateJsNode operand) as [e|err]; cbn [bind]; [|discriminate].
    intros _. destruct (IH e eq_refl) as [g ->]. cbn [bind]. eauto.
Qed.

(** A text is accepted exactly when [parse] returns: then the evaluator
    and the shader function are generated from the tree of that text, and
    [getGlslCode] does not throw. A text that is not accepted makes [parse]
    throw on every facade, and leaves its evaluator alone. *)
Lemma accepted_outcome (funcStr : jsstring) :
  match accepted funcStr with
  | Some (f, glslCode) =>
      exists root jsCode,
        parse_source funcStr = Ok root
        /\ generateJs root = Ok jsCode /\ f = NewFunction jsCode
        /\ generateGlsl root = Ok glslCode
        /\ forall this,
             ExpressionOps.parse this funcStr
             = (mkExpression (Some root) (NewFunction jsCode), None)
  | None =>
      forall this, exists this' e,
        ExpressionOps.parse this funcStr = (this', Some e)
        /\ jsFunction this' = jsFunction this
  end.
Proof.
  unfold accepted, ExpressionOps.parse, parse_source.
  destruct (tokenize funcStr) as [tokens|e]; cbn [bind]; [|eauto].
  destruct (parseTokens tokens) as [root|e]; [|eauto].
  destruct (generateJs root) as [jsCode|e] eqn:Hjs; [|eauto].
  unfold ExpressionOps.getGlslCode. cbn [ast jsFunction].
  destruct (generateJs_generateGlsl root Hjs) as [body Hbody]. rewrite Hbody.
  exists root, jsCode. repeat split; assumption.
Qed.

Lemma updateAndRedraw_accepted (app : App) (funcStr : jsstring)
    (f : JsFunction) (glslCode : GlslExpr) :
  accepted funcStr = Some (f, glslCode) ->
  let app' := updateAndRedraw app funcStr in
  jsFunction (expression app') = f
  /\ functionSource (finiteRenderer app') = Some glslCode
  /\ functionSource (infinityRenderer app') = Some glslCode
  /\ errorPanel app' = None.
Proof.
  intros Hacc. pose proof (accepted_outcome funcStr) as H. rewrite Hacc in H.
  destruct H as (root & jsCode & _ & _ & -> & Hglsl & Hparse).
  cbv zeta. unfold updateAndRedraw. rewrite Hparse.
  unfold ExpressionOps.getGlslCode. cbn [ast]. rewrite Hglsl.
  repeat split.
Qed.

Lemma updateAndRedraw_refused (app : App) (funcStr : jsstring) :
  accepted funcStr = None ->
  let app' := updateAndRedraw app funcStr in
  jsFunction (expression app') = jsFunction (expression app)
  /\ finiteRenderer app' = finiteRenderer app
  /\ infinityRenderer app' = infinityRenderer app
  /\ errorPanel app' <> None.
Proof.
  intros Hacc. pose proof (accepted_outcome funcStr) as H. rewrite Hacc in H.
  destruct (H (expression app)) as (this' & e & Hparse & Hjs).
  cbv zeta. unfold updateAndRedraw. rewrite Hparse.
  cbn [expression finiteRenderer infinityRenderer errorPanel].
  repeat split; [assumption | discriminate].
Qed.

Lemma last_accepted_In (edits : list jsstring) (latest : JsFunction * GlslExpr) :
  last_accepted edits = Some latest ->
  exists funcStr, In funcStr edits /\ accepted funcStr = Some latest.
Proof.
  induction edits as [|s edits IH]; cbn [last_accepted]; [discriminate|].
  destruct (last_accepted edits) as [c|].
  - intros [= <-]. destruct (IH eq_refl) as (funcStr & Hin & Hacc).
    exists funcStr. split; [now right | assumption].
  - intros Hacc. exists s. split; [now left | assumption].
Qed.

(** The update loop from any state: the evaluator and the two shader
    functions are those of the last accepted text, or those of the state
    the loop started in when no text was accepted. *)
Lemma updateAndRedraw_fold (edits : list jsstring) :
  forall app,
  let app' := fold_left updateAndRedraw edits app in
  match last_accepted edits with
  | Some (f, glslCode) =>
      jsFunction (expression app') = f
      /\ functionSource (finiteRenderer app') = Some glslCode
      /\ functionSource (infinityRenderer app') = Some glslCode
  | None =>
      jsFunction (expression app') = jsFunction (expression app)
      /\ functionSource (finiteRenderer app') = functionSource (finiteRenderer app)
      /\ functionSource (infinityRenderer app')
         = functionSource (infinityRenderer app)
  end.
Proof.
  induction edits as [|s edits IH]; intros app; cbv zeta;
    cbn [fold_left last_accepted]; [repeat split|].
  specialize (IH (updateAndRedraw app s)). cbv zeta in IH.
  destruct (last_accepted edits) as [[f glslCode]|]; [exact IH|].
  destruct IH as (Hjs & Hfin & Hinf). rewrite Hjs, Hfin, Hinf.
  destruct (accepted s) as [[f glslCode]|] eqn:Hacc.
  - destruct (updateAndRedraw_accepted app s Hacc) as (H1 & H2 & H3 & _).
    repeat split; assumption.
  - destruct (updateAndRedraw_refused app s Hacc) as (H1 & H2 & H3 & _).
    rewrite H2, H3. repeat split; assumption.
Qed.

(** X24. Whatever texts are typed, one after the other, the shader
    function of both renderers and the evaluator of the hover readout are
    those of the last text that was accepted, generated from the one tree
    of that text: an accepted text updates both renderers and the
    evaluator, and a text that fails afterwards, even when it replaced the
    AST of the facade, changes none of them. As long as no text was
    accepted the renderers have no shader function and the evaluator is
    the one of the default expression. *)
Theorem shader_and_evaluator_in_step (edits : list jsstring) :
  let app := fold_left updateAndRedraw edits initial_app in
  match last_accepted edits with
  | Some (f, glslCode) =>
      jsFunction (expression app) = f
      /\ functionSource (finiteRenderer app) = Some glslCode
      /\ functionSource (infinityRenderer app) = Some glslCode
      /\ exists funcStr root jsCode,
           In funcStr edits
           /\ parse_source funcStr = Ok root
           /\ generateJs root = Ok jsCode /\ f = NewFunction jsCode
           /\ generateGlsl root = Ok glslCode
  | None =>
      jsFunction (expression app) = jsFunction default_expression
      /\ functionSource (finiteRenderer app) = None
      /\ functionSource (infinityRenderer app) = None
  end.
Proof.
  cbv zeta. pose proof (updateAndRedraw_fold edits initial_app) as H.
  cbv zeta in H.
  destruct (last_accepted edits) as [[f glslCode]|] eqn:Hlast; [|exact H].
  destruct H as (Hjs & Hfin & Hinf). repeat split; try assumption.
  destruct (last_accepted_In edits Hlast) as (funcStr & Hin & Hacc).
  pose proof (accepted_outcome funcStr) as Hout. rewrite Hacc in Hout.
  destruct Hout as (root & jsCode & Hparse & Hgen & Hf & Hglsl & _).
  exists funcStr, root, jsCode. repeat split; assumption.
Qed.

(** The loop at work: after ["z^2"] and then ["z^"], which fails, the
    renderers still hold the shader function of [z^2], the tree of the
    facade is still the one of [z^2], and the error is shown. *)
Example updateAndRedraw_run :
  let app := fold_left updateAndRedraw [str "z^2"; str "z^"] initial_app in
  functionSource (finiteRenderer app)
  = Some (GlslCall (Some (str "c_pow")) [GlslText (str "z"); GlslVec2 (Fin 2)])
  /\ functionSource (infinityRenderer app) = functionSource (finiteRenderer app)
  /\ errorPanel app = Some (MissingOperand (str "^"))
  /\ ast (expression app)
     = Some (BinaryOperation (str "^") (VariableNode (str "z")) (Constant (Fin 2))).
Proof.
  cbv zeta.
  change (fold_left updateAndRedraw [str "z^2"; str "z^"] initial_app)
    with (updateAndRedraw (updateAndRedraw initial_app (str "z^2")) (str "z^")).
  repeat split.
Qed.


(** X25. A facade that has just compiled a source with no identifier
    named after a property of [Object.prototype] is usable: [evaluate]
    returns a value at every [z] and [getGlslCode] returns the shader
    function. *)
Theorem facade_usable_after_parse (this this' : Expression) (source : jsstring) :
  (forall tokens, tokenize source = Ok tokens -> no_inherited_name tokens = true) ->
  ExpressionOps.parse this source = (this', None) ->
  (forall z, exists v, ExpressionOps.evaluate this' z = Ok v)
  /\ (exists body, ExpressionOps.getGlslCode this' = Ok body).
Proof.
  intros Hno. unfold ExpressionOps.parse.
  destruct (tokenize source) as [tokens|e] eqn:Htok; [|discriminate].
  destruct (parseTokens tokens) as [root|e] eqn:Hparse; [|discriminate].
  destruct (generateJs root) as [jsCode|e] eqn:Hjs; [|discriminate].
  intros [= <-].
  destruct (compile_names_resolved _ Htok (Hno tokens eq_refl) Hparse)
    as (Hwf & _ & Hglsl).
  split; [|exact Hglsl].
  intros z. exact (run_generated z root Hjs Hwf).
Qed.

Lemma facade_usable_after_parse_witness :
  exists body,
    ExpressionOps.getGlslCode
      (fst (ExpressionOps.parse default_expression (str "sin(z)^2")))
    = Ok body.
Proof.
  refine (proj2 (@facade_usable_after_parse default_expression _
                   (str "sin(z)^2") _ eq_refl)).
  intros tokens H. injection H as <-. reflexivity.
Defined.
